(** * A shallow embedding of [didtool/scorecard.py] ([ScoreCardTransformer])

    Model choices, in the terms of the Python source:
    - probabilities, odds and slopes are Python floats; they are modelled
      exactly as rationals [Q] (every value the code computes from the
      counts and the configuration is a ratio of integers);
      [math.log2] is the only transcendental step, modelled in [R];
    - a pandas column over the bins [range(n_bins)] is a [list], read
      with [nth] and written with [upd] (every index the loops touch is
      within [0 .. n_bins - 1]);
    - a NaN count (a bin that received no sample, so that the
      [groupby] result does not cover it) is [None];
    - [int(v)] on a float truncates toward zero ([py_int_q], [py_int]),
      [round(v)] is Python's round-half-to-even ([py_round]);
    - a raised exception is an [Err] of the [result] type. *)

From Stdlib Require Import List Arith Lia ZArith Bool.
From Stdlib Require Import QArith Qround Qreals Lqa Reals Lra.
Import ListNotations.

(** ** Python-level values *)

Inductive py_error :=
| ShapeError          (* the ValueError raised by fit, lines 66 and 69 *)
| AttributeError      (* [arr.shape] on an object that has no shape *)
| IndexError          (* [arr.shape[0]] on a 0-d array *)
| EmptySequence       (* builtin max/min over an empty sequence *)
| MathDomainError     (* math.log2 of a non-positive number *)
| NaNToInteger.       (* int(round(nan)) *)

Inductive result (A : Type) :=
| Ok (a : A)
| Err (e : py_error).
Arguments Ok {A} a.
Arguments Err {A} e.

Definition bind {A B} (r : result A) (k : A -> result B) : result B :=
  match r with Ok a => k a | Err e => Err e end.

Notation "x <- r ;; k" := (bind r (fun x => k))
  (at level 61, r at next level, right associativity).

Fixpoint mapM {A B} (f : A -> result B) (l : list A) : result (list B) :=
  match l with
  | [] => Ok []
  | x :: t => y <- f x ;; ys <- mapM f t ;; Ok (y :: ys)
  end.

(** Strict comparison of two floats. *)
Definition Qlt_bool (x y : Q) : bool := negb (Qle_bool y x).

(** [int(q)] for a float [q]: truncation toward zero. *)
Definition py_int_q (q : Q) : Z :=
  if Qle_bool 0 q then Qfloor q else (- Qfloor (- q))%Z.

(** [round(q)]: nearest integer, ties to the even one. *)
Definition py_round (q : Q) : Z :=
  let f := Qfloor q in
  let r := (q - inject_Z f)%Q in
  if Qlt_bool r (1#2) then f
  else if Qlt_bool (1#2) r then (f + 1)%Z
  else if Z.even f then f else (f + 1)%Z.

(** [l[i] = v] on a column, for an index in range. *)
Fixpoint upd (l : list Q) (i : nat) (v : Q) : list Q :=
  match l, i with
  | [], _ => []
  | _ :: t, O => v :: t
  | x :: t, S j => x :: upd t j v
  end.

(** ** Configuration ([__init__]) *)

Record config := {
  n_bins : nat;
  standard_score : Z;
  standard_odds : Q;
  pdo : Z;
  bad_flag : bool
}.

Definition default_config : config :=
  {| n_bins := 20; standard_score := 500; standard_odds := 1 # 100;
     pdo := 20; bad_flag := true |}.

(** [self._step = 1.0 / self._n_bins] *)
Definition step (c : config) : Q := 1 / inject_Z (Z.of_nat (n_bins c)).

(** ** The input guard of [fit] (lines 65-70) *)

(** What the guard inspects of an argument: a numpy array and its shape,
    or some other Python object (a list, say) of a given length. *)
Inductive py_arg :=
| NdArray (shape : list nat)
| OtherSeq (len : nat).

(** [__is_one_dim_array]: [isinstance(arr, np.ndarray) and arr.ndim == 1] *)
Definition is_one_dim_array (a : py_arg) : bool :=
  match a with NdArray [_] => true | _ => false end.

(** [arr.shape[0]] *)
Definition shape0 (a : py_arg) : result nat :=
  match a with
  | NdArray (d :: _) => Ok d
  | NdArray [] => Err IndexError
  | OtherSeq _ => Err AttributeError
  end.

Definition fit_guard (x y : py_arg) : result unit :=
  if negb (is_one_dim_array x) && negb (is_one_dim_array y)
  then Err ShapeError
  else dx <- shape0 x ;; dy <- shape0 y ;;
       if Nat.eqb dx dy then Ok tt else Err ShapeError.

(** ** Binning ([__calc_bins], lines 108-132) *)

Record bin := {
  hits : option Z;
  good_hits : option Z;
  bad_hits : option Z
}.

(** [1.0 - prob] when [bad_flag] *)
Definition flip_prob (c : config) (p : Q) : Q :=
  if bad_flag c then 1 - p else p.

(** [int(x / self._step)] on the (flipped) probability *)
Definition bin_index (c : config) (p : Q) : Z :=
  py_int_q (flip_prob c p / step c).

Definition sumZ (l : list Z) : Z := fold_right Z.add 0%Z l.

(** Row [k] of [binning_df]: the groupby count and sum, aligned on
    [range(n_bins)]; a group key outside that range is dropped by the
    alignment, a bin with no group is NaN. *)
Definition calc_bin (c : config) (x : list Q) (y : list Z) (k : nat) : bin :=
  let grp := filter (fun s => Z.eqb (bin_index c (fst s)) (Z.of_nat k))
                    (combine x y) in
  match grp with
  | [] => {| hits := None; good_hits := None; bad_hits := None |}
  | _ =>
    let h := Z.of_nat (length grp) in
    let s := sumZ (map snd grp) in
    if bad_flag c
    then {| hits := Some h; bad_hits := Some s; good_hits := Some (h - s)%Z |}
    else {| hits := Some h; good_hits := Some s; bad_hits := Some (h - s)%Z |}
  end.

Definition calc_raw_bins (c : config) (x : list Q) (y : list Z) : list bin :=
  map (calc_bin c x y) (seq 0 (n_bins c)).

(** [good_hits / bad_hits]: a float, inf or nan. *)
Inductive odds_val :=
| Fin (q : Q)
| Inf
| NaN.

Definition odds (b : bin) : odds_val :=
  match good_hits b, bad_hits b with
  | Some g, Some d =>
    if Z.eqb d 0 then (if Z.eqb g 0 then NaN else Inf)
    else Fin (inject_Z g / inject_Z d)
  | _, _ => NaN
  end.

(** ** Odds repair ([__adjust_odds], lines 153-194) *)

(** Line 160-162: infinite and NaN odds become 0. *)
Definition zeroed (o : odds_val) : Q :=
  match o with Fin q => q | _ => 0 end.

Definition zeroed_odds (bins : list bin) : list Q :=
  map (fun b => zeroed (odds b)) bins.

(** First index, scanning left to right, of the best value among those
    accepted by [ok]; a later value replaces the current one only when it
    is strictly [better].  With [ok] always true and [better] = "greater"
    this is [max(col)] and [col.argmax()] (lines 163-164). *)
Fixpoint arg_best (ok : Q -> bool) (better : Q -> Q -> bool)
    (l : list Q) (i : nat) (acc : option (nat * Q)) : option (nat * Q) :=
  match l with
  | [] => acc
  | x :: t =>
    let acc' :=
      if ok x then
        match acc with
        | None => Some (i, x)
        | Some (_, y) => if better x y then Some (i, x) else acc
        end
      else acc in
    arg_best ok better t (S i) acc'
  end.

Definition is_nonzero (q : Q) : bool := negb (Qeq_bool q 0).

Definition max_odds_of (adj : list Q) : option (nat * Q) :=
  arg_best (fun _ => true) (fun x y => Qlt_bool y x) adj 0 None.

(** Lines 165-166: [min(col[col != 0])] and [col[col != 0].argmin()].
    Since pandas 1.0, [Series.argmin] returns the position of the first
    minimum within the filtered column, not its index label: the two
    differ when a zero precedes the minimum. *)
Definition min_odds_of (adj : list Q) : option (nat * Q) :=
  arg_best (fun _ => true) Qlt_bool (filter is_nonzero adj) 0 None.

(** [df['good_hits'][i] == 0.0]; NaN compares unequal. *)
Definition is_zero_count (o : option Z) : bool :=
  match o with Some 0%Z => true | _ => false end.

(** Lines 169-175: [for i in range(min_odds_index - 1, -1, -1)], written
    as a recursion on [k], the number of indices left ([k - 1] is the
    current one). *)
Fixpoint low_loop (goods : list (option Z)) (k : nat) (is_zero_good : bool)
    (min_odds : Q) (adj : list Q) : list Q :=
  match k with
  | O => adj
  | S i =>
    let z := is_zero_good || is_zero_count (nth i goods None) in
    if z then
      let m := min_odds / 2 in
      low_loop goods i z m (upd adj i m)
    else low_loop goods i z min_odds adj
  end.

(** Lines 178-184: [for i in range(max_odds_index + 1, n_bins)], from [i]
    with [cnt] indices left. *)
Fixpoint high_loop (bads : list (option Z)) (i cnt : nat) (is_zero_bad : bool)
    (max_odds : Q) (adj : list Q) : list Q :=
  match cnt with
  | O => adj
  | S c =>
    let z := is_zero_bad || is_zero_count (nth i bads None) in
    if z then
      let m := max_odds * 2 in
      high_loop bads (S i) c z m (upd adj i m)
    else high_loop bads (S i) c z max_odds adj
  end.

(** Lines 187-193: [for i in range(min_odds_index + 1, max_odds_index - 1)],
    from [i] with [cnt] indices left. *)
Definition mid_step (i : nat) (adj : list Q) : list Q :=
  if Qeq_bool (nth i adj 0) 0 then
    if negb (Qeq_bool (nth (S i) adj 0) 0)
    then upd adj i ((nth (i - 1) adj 0 + nth (S i) adj 0) / 2)
    else upd adj i (nth (i - 1) adj 0)
  else adj.

Fixpoint mid_loop (i cnt : nat) (adj : list Q) : list Q :=
  match cnt with
  | O => adj
  | S c => mid_loop (S i) c (mid_step i adj)
  end.

(** The Python range [range(L + 1, M - 1)] has [(M - 1) - (L + 1)] elements
    when [M >= 1]; for [M = 0] it is empty, as the truncated subtraction
    on [nat] gives. *)
Definition adjust_odds (n : nat) (bins : list bin) : result (list Q) :=
  let adj := zeroed_odds bins in
  match max_odds_of adj with
  | None => Err EmptySequence
  | Some (M, max_odds) =>
    match min_odds_of adj with
    | None => Err EmptySequence
    | Some (L, min_odds) =>
      let adj1 := low_loop (map good_hits bins) L false min_odds adj in
      let adj2 := high_loop (map bad_hits bins) (S M) (n - S M) false
                            max_odds adj1 in
      Ok (mid_loop (S L) ((M - 1) - (L + 1)) adj2)
    end
  end.

(** The index [L] and [M] of lines 164 and 166, when they exist. *)
Definition min_index (bins : list bin) : nat :=
  match min_odds_of (zeroed_odds bins) with
  | Some (L, _) => L | None => 0 end.

(** The value [min_odds] of line 165, when it exists. *)
Definition min_odds_value (bins : list bin) : Q :=
  match min_odds_of (zeroed_odds bins) with
  | Some (_, m) => m | None => 0 end.

Definition max_index (bins : list bin) : nat :=
  match max_odds_of (zeroed_odds bins) with
  | Some (M, _) => M | None => 0 end.

(** A bin built from explicit counts. *)
Definition mk_bin (g d : Z) : bin :=
  {| hits := Some (g + d)%Z; good_hits := Some g; bad_hits := Some d |}.

Definition empty_bin : bin :=
  {| hits := None; good_hits := None; bad_hits := None |}.

(** The front half of [fit]: the bins of [__calc_bins] and their repaired
    odds (lines 108-133). *)
Definition fit_odds (c : config) (x : list Q) (y : list Z)
    : result (list bin * list Q) :=
  let bins := calc_raw_bins c x y in
  adj <- adjust_odds (n_bins c) bins ;; Ok (bins, adj).

(** ** Scores ([__calc_bins], lines 135-150) *)

(** [int(v)] on a float, for a real [v]: truncation toward zero. *)
Definition py_int (v : R) : Z :=
  if Rle_dec 0 v then Int_part v else (- Int_part (- v))%Z.

(** [standard_score + pdo * math.log2(x / standard_odds)] *)
Definition score_value (c : config) (a : Q) : R :=
  (IZR (standard_score c)
   + IZR (pdo c) * (ln (Q2R a / Q2R (standard_odds c)) / ln 2))%R.

(** Line 146-148: [math.log2] raises on a non-positive argument. *)
Definition score_of (c : config) (a : Q) : result Z :=
  if Qle_bool (a / standard_odds c) 0 then Err MathDomainError
  else Ok (py_int (score_value c a)).

(** Lines 135-142: [prob_l] is [np.arange(0, 1, step)]; with [bad_flag] the
    rows are sorted by descending [prob_l] and renumbered, which reverses
    them. *)
Definition final_order {A} (c : config) (l : list A) : list A :=
  if bad_flag c then rev l else l.

Definition prob_l (c : config) (k : nat) : Q := inject_Z (Z.of_nat k) * step c.
Definition prob_r (c : config) (k : nat) : Q := prob_l c k + step c.
Definition mean_prob (c : config) (k : nat) : Q := (prob_l c k + prob_r c k) / 2.

(** The per-bin scores, in the final row order. *)
Definition fit_scores (c : config) (x : list Q) (y : list Z) : result (list Z) :=
  r <- fit_odds c x y ;; mapM (score_of c) (final_order c (snd r)).

(** ** Mapping table ([__calc_mapping_df], lines 202-227) *)

Definition slope_intercept (pl sl pr sr : Q) : Q * Q :=
  let den := pr - pl in ((sr - sl) / den, (pr * sl - pl * sr) / den).

(** Row [i] of [anchor]: [(prob_l, score_l, prob_r, score_r)]. *)
Definition anchor (c : config) (scores : list Z) (lo hi : Q) (i : nat)
    : Q * Q * Q * Q :=
  let n := n_bins c in
  let pl := match i with O => 0 | S j => mean_prob c j end in
  let sl := match i with O => lo | S j => inject_Z (nth j scores 0%Z) end in
  let pr := if Nat.eqb i n then 1 else mean_prob c i in
  let sr := if Nat.eqb i n then hi else inject_Z (nth i scores 0%Z) in
  (pl, sl, pr, sr).

Definition calc_mapping (c : config) (scores : list Z) : result (list (Q * Q)) :=
  match scores with
  | [] => Err EmptySequence
  | s0 :: _ =>
    let mx := fold_left Z.max scores s0 in
    let mn := fold_left Z.min scores s0 in
    let p := inject_Z (pdo c) in
    let lo := if bad_flag c then inject_Z mx + p else inject_Z mn - p in
    let hi := if bad_flag c then inject_Z mn - p / 2 else inject_Z mx + p / 2 in
    Ok (map (fun i => let '(pl, sl, pr, sr) := anchor c scores lo hi i in
                      slope_intercept pl sl pr sr)
            (seq 0 (S (n_bins c))))
  end.

(** ** [fit] and [transform] *)

Definition fit (c : config) (x : list Q) (y : list Z)
    : result (list Z * list (Q * Q)) :=
  _ <- fit_guard (NdArray [length x]) (NdArray [length y]) ;;
  scores <- fit_scores c x y ;;
  mapping <- calc_mapping c scores ;;
  Ok (scores, mapping).

(** Line 92: [int((x + self._step / 2) / self._step)] *)
Definition seg_index (c : config) (p : Q) : Z :=
  py_int_q ((p + step c / 2) / step c).

(** Lines 93-96 for one row: the left merge on [mapping_df]'s index gives
    NaN slope and intercept for an index it does not hold, and
    [int(round(nan))] raises. *)
Definition transform_one (c : config) (mapping : list (Q * Q)) (p : Q)
    : result Z :=
  let idx := seg_index c p in
  if Z.ltb idx 0 then Err NaNToInteger
  else match nth_error mapping (Z.to_nat idx) with
       | Some (slope, intercept) => Ok (py_round (slope * p + intercept))
       | None => Err NaNToInteger
       end.

Definition transform (c : config) (mapping : list (Q * Q)) (x : list Q)
    : result (list Z) :=
  mapM (transform_one c mapping) x.

(** Every value of a column is non-negative. *)
Definition nonneg (l : list Q) : Prop := forall j, 0 <= nth j l 0.

(** The counts of a bin are non-negative (binary labels). *)
Definition counts_ok (b : bin) : bool :=
  match good_hits b, bad_hits b with
  | Some g, Some d => Z.leb 0 g && Z.leb 0 d
  | _, _ => true
  end.

(** [binning_df['hits'].sum()]: pandas skips NaN. *)
Definition total_hits (bins : list bin) : Z :=
  sumZ (map (fun b => match hits b with Some h => h | None => 0%Z end) bins).

(** ** The bar heights of [plot_bins] (lines 247-249) *)

(** The quotient of two count columns: NaN when either count is NaN;
    [x / 0] is an infinity for [x <> 0] and NaN for [x = 0]. *)
Definition count_ratio (a d : option Z) : odds_val :=
  match a, d with
  | Some g, Some h =>
    if Z.eqb h 0 then (if Z.eqb g 0 then NaN else Inf)
    else Fin (inject_Z g / inject_Z h)
  | _, _ => NaN
  end.

(** [hit_rate = binning_df['hits'] / binning_df['hits'].sum()] *)
Definition hit_rate (bins : list bin) : list odds_val :=
  map (fun b => count_ratio (hits b) (Some (total_hits bins))) bins.

(** [pos_rate = (bad_hits if bad_flag else good_hits) / hits] *)
Definition pos_rate (c : config) (bins : list bin) : list odds_val :=
  map (fun b => count_ratio (if bad_flag c then bad_hits b else good_hits b)
                            (hits b)) bins.

(** A label of [y] is binary. *)
Definition is_binary (l : Z) : bool := Z.eqb l 0 || Z.eqb l 1.

(** [Series.sum()] of a float column without infinities: NaN is skipped. *)
Definition series_sum (l : list odds_val) : Q :=
  fold_right (fun o acc => match o with Fin q => q + acc | _ => acc end) 0 l.

(** * Proofs *)

Example adjust_ex1 :
  adjust_odds 3 [mk_bin 1 1; mk_bin 0 1; mk_bin 2 1] = Ok [1; 0; 2].
Proof. reflexivity. Qed.

Example transform_ex :
  let c := {| n_bins := 2; standard_score := 500; standard_odds := 1;
              pdo := 20; bad_flag := false |} in
  (m <- calc_mapping c [500; 520]%Z ;; transform c m [0; 1#4; 1#2; 99#100])
  = Ok [480; 500; 510; 530]%Z.
Proof. vm_compute. reflexivity. Qed.

(** ** Column updates *)

Lemma length_upd : forall l i v, length (upd l i v) = length l.
Proof. induction l as [|x l IH]; intros [|i] v; simpl; auto. Qed.

Lemma upd_out : forall l i v, (length l <= i)%nat -> upd l i v = l.
Proof.
  induction l as [|x l IH]; intros [|i] v H; simpl in *; auto; try lia.
  rewrite IH; auto; lia.
Qed.

Lemma nth_upd_eq : forall l i v, (i < length l)%nat -> nth i (upd l i v) 0 = v.
Proof.
  induction l as [|x l IH]; intros [|i] v H; simpl in *; auto; try lia.
  apply IH; lia.
Qed.

Lemma nth_upd_ne : forall l i j v, i <> j -> nth j (upd l i v) 0 = nth j l 0.
Proof.
  induction l as [|x l IH]; intros [|i] [|j] v H; simpl; auto; try congruence.
Qed.

Lemma nth_upd_cases : forall l i j v,
  nth j (upd l i v) 0 = nth j l 0 \/ nth j (upd l i v) 0 = v.
Proof.
  intros l i j v. destruct (Nat.eq_dec i j) as [<-|Hne].
  - destruct (Nat.lt_ge_cases i (length l)) as [Hl|Hl].
    + right. apply nth_upd_eq; auto.
    + left. rewrite upd_out; auto.
  - left. apply nth_upd_ne; auto.
Qed.

Lemma Qhalf_pos : forall x, 0 < x -> 0 < x / 2.
Proof. intros x H. unfold Qdiv. change (/ 2) with (1 # 2). Lqa.lra. Qed.

Lemma Qdouble_pos : forall x, 0 < x -> 0 < x * 2.
Proof. intros x H. Lqa.lra. Qed.

Lemma Qavg_pos : forall x y, 0 < x -> 0 <= y -> 0 < (x + y) / 2.
Proof. intros x y Hx Hy. unfold Qdiv. change (/ 2) with (1 # 2). Lqa.lra. Qed.

Lemma Qnonzero_pos : forall x, 0 <= x -> Qeq_bool x 0 = false -> 0 < x.
Proof.
  intros x H1 H2. destruct (Qle_lteq 0 x) as [H _].
  destruct (H H1) as [H3|H3]; auto.
  assert (Qeq_bool x 0 = true) by (apply Qeq_bool_iff; symmetry; auto).
  congruence.
Qed.

Lemma Qpos_nonzero : forall x, 0 < x -> Qeq_bool x 0 = false.
Proof.
  intros x H. destruct (Qeq_bool x 0) eqn:E; auto.
  apply Qeq_bool_iff in E. rewrite E in H. discriminate.
Qed.

(** ** The three loops of [__adjust_odds] *)

Section Loops.

Variable goods bads : list (option Z).

Lemma low_loop_length : forall k z m adj,
  length (low_loop goods k z m adj) = length adj.
Proof.
  induction k as [|i IH]; intros z m adj; simpl; auto.
  destruct (z || _); rewrite IH; auto using length_upd.
Qed.

Lemma low_loop_above : forall k z m adj j, (k <= j)%nat ->
  nth j (low_loop goods k z m adj) 0 = nth j adj 0.
Proof.
  induction k as [|i IH]; intros z m adj j H; simpl; auto.
  destruct (z || _); rewrite IH by lia; auto.
  apply nth_upd_ne; lia.
Qed.

Lemma low_loop_untriggered : forall k m adj j, (j < k)%nat ->
  (forall t, (j <= t < k)%nat -> is_zero_count (nth t goods None) = false) ->
  nth j (low_loop goods k false m adj) 0 = nth j adj 0.
Proof.
  induction k as [|i IH]; intros m adj j H Hz; simpl; auto.
  rewrite (Hz i) by lia. simpl.
  destruct (Nat.eq_dec j i) as [->|Hne].
  - apply low_loop_above; lia.
  - apply IH; auto; try lia. intros t Ht; apply Hz; lia.
Qed.

Lemma low_loop_writes_pos : forall k z m adj j, 0 < m ->
  nth j (low_loop goods k z m adj) 0 = nth j adj 0 \/
  0 < nth j (low_loop goods k z m adj) 0.
Proof.
  induction k as [|i IH]; intros z m adj j Hm; simpl; auto.
  destruct (z || _).
  - destruct (IH true (m / 2) (upd adj i (m / 2)) j (Qhalf_pos m Hm)) as [E|E];
      auto.
    rewrite E. destruct (nth_upd_cases adj i j (m / 2)) as [E'|E']; rewrite E';
      auto using Qhalf_pos.
  - apply IH; auto.
Qed.

Lemma low_loop_pos : forall k z m adj j, 0 < m -> (k <= length adj)%nat ->
  (j < k)%nat ->
  (z = true \/ exists t, (j <= t < k)%nat /\
                         is_zero_count (nth t goods None) = true) ->
  0 < nth j (low_loop goods k z m adj) 0.
Proof.
  induction k as [|i IH]; intros z m adj j Hm Hk Hj Htr; simpl; [lia|].
  destruct (z || is_zero_count (nth i goods None)) eqn:Ez.
  - destruct (Nat.eq_dec j i) as [->|Hne].
    + rewrite low_loop_above by lia. rewrite nth_upd_eq by lia.
      apply Qhalf_pos; auto.
    + apply IH; auto using Qhalf_pos; try lia. rewrite length_upd; lia.
  - apply orb_false_iff in Ez as [Ez1 Ez2].
    destruct Htr as [Htr|[t [Ht Htz]]]; [congruence|].
    assert (t <> i) by (intros ->; congruence).
    apply IH; auto; try lia. right. exists t. split; auto; lia.
Qed.

Lemma high_loop_length : forall cnt i z m adj,
  length (high_loop bads i cnt z m adj) = length adj.
Proof.
  induction cnt as [|c IH]; intros i z m adj; simpl; auto.
  destruct (z || _); rewrite IH; auto using length_upd.
Qed.

Lemma high_loop_outside : forall cnt i z m adj j,
  (j < i \/ i + cnt <= j)%nat ->
  nth j (high_loop bads i cnt z m adj) 0 = nth j adj 0.
Proof.
  induction cnt as [|c IH]; intros i z m adj j H; simpl; auto.
  destruct (z || _); rewrite IH by lia; auto.
  apply nth_upd_ne; lia.
Qed.

Lemma high_loop_untriggered : forall cnt i m adj j, (i <= j)%nat ->
  (forall t, (i <= t <= j)%nat -> is_zero_count (nth t bads None) = false) ->
  nth j (high_loop bads i cnt false m adj) 0 = nth j adj 0.
Proof.
  induction cnt as [|c IH]; intros i m adj j H Hz; simpl; auto.
  rewrite (Hz i) by lia. simpl.
  destruct (Nat.eq_dec j i) as [->|Hne].
  - apply high_loop_outside; lia.
  - apply IH; try lia. intros t Ht; apply Hz; lia.
Qed.

Lemma high_loop_writes_pos : forall cnt i z m adj j, 0 < m ->
  nth j (high_loop bads i cnt z m adj) 0 = nth j adj 0 \/
  0 < nth j (high_loop bads i cnt z m adj) 0.
Proof.
  induction cnt as [|c IH]; intros i z m adj j Hm; simpl; auto.
  destruct (z || _).
  - destruct (IH (S i) true (m * 2) (upd adj i (m * 2)) j (Qdouble_pos m Hm))
      as [E|E]; auto.
    rewrite E. destruct (nth_upd_cases adj i j (m * 2)) as [E'|E']; rewrite E';
      auto using Qdouble_pos.
  - apply IH; auto.
Qed.

Lemma high_loop_pos : forall cnt i z m adj j, 0 < m ->
  (i + cnt <= length adj)%nat -> (i <= j < i + cnt)%nat ->
  (z = true \/ exists t, (i <= t <= j)%nat /\
                         is_zero_count (nth t bads None) = true) ->
  0 < nth j (high_loop bads i cnt z m adj) 0.
Proof.
  induction cnt as [|c IH]; intros i z m adj j Hm Hk Hj Htr; simpl; [lia|].
  destruct (z || is_zero_count (nth i bads None)) eqn:Ez.
  - destruct (Nat.eq_dec j i) as [->|Hne].
    + rewrite high_loop_outside by lia. rewrite nth_upd_eq by lia.
      apply Qdouble_pos; auto.
    + apply IH; auto using Qdouble_pos; try lia. rewrite length_upd; lia.
  - apply orb_false_iff in Ez as [Ez1 Ez2].
    destruct Htr as [Htr|[t [Ht Htz]]]; [congruence|].
    assert (t <> i) by (intros ->; congruence).
    apply IH; auto; try lia. right. exists t. split; auto; lia.
Qed.

End Loops.

Lemma nonneg_upd : forall l i v, nonneg l -> 0 <= v -> nonneg (upd l i v).
Proof.
  intros l i v Hl Hv j. destruct (nth_upd_cases l i j v) as [E|E]; rewrite E; auto.
Qed.

Lemma mid_step_length : forall i adj, length (mid_step i adj) = length adj.
Proof.
  intros i adj. unfold mid_step.
  destruct (Qeq_bool _ 0); [destruct (negb _)|]; auto using length_upd.
Qed.

Lemma mid_step_ne : forall i adj j, j <> i ->
  nth j (mid_step i adj) 0 = nth j adj 0.
Proof.
  intros i adj j H. unfold mid_step.
  destruct (Qeq_bool _ 0); [destruct (negb _)|]; auto; apply nth_upd_ne; auto.
Qed.

Lemma mid_step_nonzero : forall i adj, Qeq_bool (nth i adj 0) 0 = false ->
  mid_step i adj = adj.
Proof. intros i adj H. unfold mid_step. rewrite H. reflexivity. Qed.

Lemma mid_step_nonneg : forall i adj, nonneg adj -> nonneg (mid_step i adj).
Proof.
  intros i adj H. unfold mid_step.
  destruct (Qeq_bool _ 0); [destruct (negb _) eqn:E|]; auto;
    apply nonneg_upd; auto.
  unfold Qdiv. change (/ 2) with (1 # 2).
  pose proof (H (i - 1)%nat). pose proof (H (S i)).
  Lqa.lra.
Qed.

Lemma mid_step_pos : forall i adj, (1 <= i < length adj)%nat -> nonneg adj ->
  0 < nth (i - 1) adj 0 -> 0 < nth i (mid_step i adj) 0.
Proof.
  intros i adj Hi Hn Hp. unfold mid_step.
  destruct (Qeq_bool (nth i adj 0) 0) eqn:E.
  - destruct (negb _); rewrite nth_upd_eq by lia; auto.
    apply Qavg_pos; auto.
  - apply Qnonzero_pos; auto.
Qed.

Lemma mid_loop_length : forall cnt i adj, length (mid_loop i cnt adj) = length adj.
Proof.
  induction cnt as [|c IH]; intros i adj; simpl; auto.
  rewrite IH. apply mid_step_length.
Qed.

Lemma mid_loop_outside : forall cnt i adj j, (j < i \/ i + cnt <= j)%nat ->
  nth j (mid_loop i cnt adj) 0 = nth j adj 0.
Proof.
  induction cnt as [|c IH]; intros i adj j H; simpl; auto.
  rewrite IH by lia. apply mid_step_ne; lia.
Qed.

Lemma mid_loop_nonzero : forall cnt i adj j, Qeq_bool (nth j adj 0) 0 = false ->
  nth j (mid_loop i cnt adj) 0 = nth j adj 0.
Proof.
  induction cnt as [|c IH]; intros i adj j H; simpl; auto.
  assert (E : nth j (mid_step i adj) 0 = nth j adj 0).
  { destruct (Nat.eq_dec j i) as [->|Hne].
    - rewrite mid_step_nonzero; auto.
    - apply mid_step_ne; auto. }
  rewrite IH; auto. rewrite E; auto.
Qed.

Lemma mid_loop_nonneg : forall cnt i adj, nonneg adj -> nonneg (mid_loop i cnt adj).
Proof.
  induction cnt as [|c IH]; intros i adj H; simpl; auto.
  apply IH, mid_step_nonneg; auto.
Qed.

Lemma mid_loop_pos : forall cnt i adj j, (1 <= i)%nat ->
  (i + cnt <= length adj)%nat -> nonneg adj -> 0 < nth (i - 1) adj 0 ->
  (i - 1 <= j < i + cnt)%nat -> 0 < nth j (mid_loop i cnt adj) 0.
Proof.
  induction cnt as [|c IH]; intros i adj j Hi Hl Hn Hp Hj; simpl.
  - replace j with (i - 1)%nat by lia. auto.
  - destruct (Nat.eq_dec j (i - 1)) as [->|Hne].
    + rewrite mid_loop_outside by lia. rewrite mid_step_ne by lia. auto.
    + apply IH; try lia.
      * rewrite mid_step_length; lia.
      * apply mid_step_nonneg; auto.
      * replace (S i - 1)%nat with i by lia. apply mid_step_pos; auto; lia.
Qed.

Lemma mid_loop_pos_from : forall cnt i adj j k, (1 <= i)%nat ->
  (i + cnt <= length adj)%nat -> nonneg adj ->
  (i - 1 <= k <= j)%nat -> (j < i + cnt)%nat -> 0 < nth k adj 0 ->
  0 < nth j (mid_loop i cnt adj) 0.
Proof.
  induction cnt as [|c IH]; intros i adj j k Hi Hl Hn Hk Hj Hp.
  - simpl. replace j with k by lia. auto.
  - destruct (Nat.eq_dec k (i - 1)) as [->|Hne].
    + apply mid_loop_pos; auto; lia.
    + simpl. apply (IH (S i) _ j k); try lia.
      * rewrite mid_step_length; lia.
      * apply mid_step_nonneg; auto.
      * destruct (Nat.eq_dec k i) as [->|Hki].
        -- rewrite mid_step_nonzero; auto using Qpos_nonzero.
        -- rewrite mid_step_ne; auto.
Qed.

(** ** The selection of [M] and [L] *)

Lemma arg_best_found : forall ok better l i0 acc i x,
  arg_best ok better l i0 acc = Some (i, x) ->
  acc = Some (i, x) \/
  ((i0 <= i)%nat /\ (i - i0 < length l)%nat /\ nth (i - i0) l 0 = x /\
   ok x = true).
Proof.
  intros ok better l. induction l as [|h t IH]; intros i0 acc i x H; simpl in H.
  - left; auto.
  - apply IH in H as [H|(H1 & H2 & H3 & H4)].
    + destruct (ok h) eqn:Eok; [|left; auto].
      destruct acc as [[k y]|].
      * destruct (better h y); [|left; auto].
        injection H as <- <-. right. simpl. rewrite Nat.sub_diag. repeat split; auto; lia.
      * injection H as <- <-. right. simpl. rewrite Nat.sub_diag. repeat split; auto; lia.
    + right. simpl. replace (i - i0)%nat with (S (i - S i0)) by lia.
      repeat split; auto; lia.
Qed.

Lemma Qlt_bool_true : forall x y, Qlt_bool x y = true -> x < y.
Proof.
  intros x y H. unfold Qlt_bool in H. apply negb_true_iff in H.
  apply Qnot_le_lt. intros H'. apply Qle_bool_iff in H'. congruence.
Qed.

Lemma Qlt_bool_false : forall x y, Qlt_bool x y = false -> y <= x.
Proof.
  intros x y H. unfold Qlt_bool in H. apply negb_false_iff in H.
  apply Qle_bool_iff; auto.
Qed.

Lemma arg_best_max : forall l i0 acc i x,
  arg_best (fun _ => true) (fun a b => Qlt_bool b a) l i0 acc = Some (i, x) ->
  (forall k y, acc = Some (k, y) -> y <= x) /\
  (forall j, (j < length l)%nat -> nth j l 0 <= x).
Proof.
  induction l as [|h t IH]; intros i0 acc i x H; simpl in H.
  - split; [|simpl; intros; lia].
    intros k y ->. injection H as _ ->. apply Qle_refl.
  - apply IH in H as [Hacc Ht].
    destruct acc as [[k0 y0]|] eqn:Ea.
    + destruct (Qlt_bool y0 h) eqn:Elt.
      * pose proof (Hacc _ _ eq_refl) as Hh. apply Qlt_bool_true in Elt.
        split.
        -- intros k y E. injection E as _ <-. apply Qlt_le_weak.
           eapply Qlt_le_trans; eauto.
        -- intros [|j] Hj; simpl; auto. apply Ht. simpl in Hj; lia.
      * pose proof (Hacc _ _ eq_refl) as Hy. apply Qlt_bool_false in Elt.
        split.
        -- intros k y E. injection E as _ <-. auto.
        -- intros [|j] Hj; simpl.
           ++ eapply Qle_trans; eauto.
           ++ apply Ht. simpl in Hj; lia.
    + pose proof (Hacc _ _ eq_refl) as Hh. split; [discriminate|].
      intros [|j] Hj; simpl; auto. apply Ht. simpl in Hj; lia.
Qed.

(** ** Facts about the bins of [__adjust_odds] *)

Lemma is_zero_count_iff : forall o, is_zero_count o = true <-> o = Some 0%Z.
Proof. intros [[|p|p]|]; simpl; split; congruence. Qed.

Lemma nth_goods : forall bins t,
  nth t (map good_hits bins) None = good_hits (nth t bins empty_bin).
Proof. intros bins t. exact (map_nth good_hits bins empty_bin t). Qed.

Lemma nth_bads : forall bins t,
  nth t (map bad_hits bins) None = bad_hits (nth t bins empty_bin).
Proof. intros bins t. exact (map_nth bad_hits bins empty_bin t). Qed.

Lemma nth_zeroed_odds : forall bins j,
  nth j (zeroed_odds bins) 0 = zeroed (odds (nth j bins empty_bin)).
Proof.
  intros bins j. exact (map_nth (fun b => zeroed (odds b)) bins empty_bin j).
Qed.

Lemma length_zeroed_odds : forall bins, length (zeroed_odds bins) = length bins.
Proof. intros. apply length_map. Qed.

Lemma zeroed_odds_nonneg : forall bins, forallb counts_ok bins = true ->
  nonneg (zeroed_odds bins).
Proof.
  intros bins H j. rewrite nth_zeroed_odds.
  destruct (Nat.lt_ge_cases j (length bins)) as [Hj|Hj].
  2:{ rewrite nth_overflow by auto. apply Qle_refl. }
  assert (Hb : counts_ok (nth j bins empty_bin) = true).
  { rewrite forallb_forall in H. apply H, nth_In; auto. }
  set (b := nth j bins empty_bin) in *.
  unfold counts_ok in Hb. unfold odds.
  destruct (good_hits b) as [g|]; destruct (bad_hits b) as [d|];
    try apply Qle_refl.
  apply andb_true_iff in Hb as [Hg Hd]. apply Z.leb_le in Hg, Hd.
  destruct (Z.eqb d 0) eqn:Ed; [destruct (Z.eqb g 0); apply Qle_refl|].
  apply Z.eqb_neq in Ed. simpl.
  apply Qle_shift_div_l.
  - unfold Qlt. simpl. lia.
  - rewrite Qmult_0_l. unfold Qle. simpl. lia.
Qed.

Section Adjust.

Variable n : nat.
Variable bins : list bin.
Hypothesis Hlen : length bins = n.

Let adj0 := zeroed_odds bins.
Let goods := map good_hits bins.
Let bads := map bad_hits bins.

Lemma adjust_odds_unfold : forall adj, adjust_odds n bins = Ok adj ->
  exists M mx L mn,
    max_odds_of adj0 = Some (M, mx) /\ min_odds_of adj0 = Some (L, mn) /\
    max_index bins = M /\ min_index bins = L /\
    adj = mid_loop (S L) ((M - 1) - (L + 1))
            (high_loop bads (S M) (n - S M) false mx
               (low_loop goods L false mn adj0)).
Proof.
  intros adj H. unfold adjust_odds, max_index, min_index in *.
  fold adj0 in H |- *.
  destruct (max_odds_of adj0) as [[M mx]|]; [|discriminate].
  destruct (min_odds_of adj0) as [[L mn]|]; [|discriminate].
  injection H as <-. exists M, mx, L, mn. repeat split.
Qed.

Lemma max_odds_spec : forall M mx, max_odds_of adj0 = Some (M, mx) ->
  (M < n)%nat /\ nth M adj0 0 = mx /\
  forall j, (j < n)%nat -> nth j adj0 0 <= mx.
Proof.
  intros M mx H. pose proof H as H'.
  unfold max_odds_of in H. apply arg_best_found in H as [H|(_ & H1 & H2 & _)];
    [discriminate|].
  apply arg_best_max in H' as [_ Hall].
  unfold adj0 in *. rewrite length_zeroed_odds, Hlen in *.
  rewrite Nat.sub_0_r in *. split; [auto|split; [auto|]].
  intros j Hj. apply Hall. lia.
Qed.

Lemma min_odds_spec : forall L mn, min_odds_of adj0 = Some (L, mn) ->
  (L < n)%nat /\ Qeq_bool mn 0 = false /\
  exists k, (k < n)%nat /\ nth k adj0 0 = mn.
Proof.
  intros L mn H.
  unfold min_odds_of in H. apply arg_best_found in H as [H|(_ & H1 & H2 & _)];
    [discriminate|].
  rewrite Nat.sub_0_r in *.
  assert (Hf : (length (filter is_nonzero adj0) <= n)%nat).
  { rewrite <- Hlen, <- (length_zeroed_odds bins). apply filter_length_le. }
  assert (Hin : In mn (filter is_nonzero adj0)) by (rewrite <- H2; apply nth_In; auto).
  apply filter_In in Hin as [Hin Hnz].
  unfold is_nonzero in Hnz. apply negb_true_iff in Hnz.
  apply (In_nth _ _ 0) in Hin as (k & Hk & Hkv).
  unfold adj0 in Hk. rewrite length_zeroed_odds, Hlen in Hk.
  split; [lia|]. split; [auto|]. exists k. auto.
Qed.

End Adjust.

(** ** Claim C1 *)

(** A bin that none of the three loops reaches keeps its zeroed raw odds:
    it lies at or above [L] or below every [good_hits = 0] trigger of the
    low loop, at or below [M] or before every [bad_hits = 0] trigger of the
    high loop, and outside [range(L + 1, M - 1)]. *)
Lemma adjust_loops_frame : forall n bins L M mn mx j,
  ((L <= j)%nat \/ forall t, (j <= t < L)%nat ->
                     good_hits (nth t bins empty_bin) <> Some 0%Z) ->
  ((j <= M)%nat \/ forall t, (M < t <= j)%nat ->
                     bad_hits (nth t bins empty_bin) <> Some 0%Z) ->
  (j <= L \/ M <= j + 1)%nat ->
  nth j (mid_loop (S L) ((M - 1) - (L + 1))
           (high_loop (map bad_hits bins) (S M) (n - S M) false mx
              (low_loop (map good_hits bins) L false mn (zeroed_odds bins)))) 0
  = nth j (zeroed_odds bins) 0.
Proof.
  intros n bins L M mn mx j Hlo Hhi Hmid.
  rewrite mid_loop_outside by lia.
  assert (E1 : nth j (low_loop (map good_hits bins) L false mn (zeroed_odds bins)) 0
               = nth j (zeroed_odds bins) 0).
  { destruct (Nat.le_gt_cases L j) as [Hj|Hj].
    - apply low_loop_above; auto.
    - destruct Hlo as [Hlo|Hlo]; [lia|].
      apply low_loop_untriggered; auto. intros t Ht.
      rewrite nth_goods. destruct (is_zero_count _) eqn:E; auto.
      apply is_zero_count_iff in E. exfalso. apply (Hlo t); auto. }
  rewrite <- E1. destruct (Nat.le_gt_cases j M) as [Hj|Hj].
  - apply high_loop_outside; lia.
  - destruct Hhi as [Hhi|Hhi]; [lia|].
    apply high_loop_untriggered; auto. intros t Ht.
    rewrite nth_bads. destruct (is_zero_count _) eqn:E; auto.
    apply is_zero_count_iff in E. exfalso. apply (Hhi t); auto; lia.
Qed.


(** ** Claim C10 *)

(** Claim C10: a bin whose raw odds are finite and nonzero keeps them as
    adjusted_odds when its index lies between [L] and [M]; more generally
    it keeps them unless the low-end repair reached it (it lies below [L],
    at or below a bin with [good_hits = 0]) or the high-end repair did (it
    lies above [M], at or above a bin with [bad_hits = 0]). *)
Theorem adjust_odds_frame : forall n bins adj,
  length bins = n ->
  adjust_odds n bins = Ok adj ->
  (forall j, (min_index bins <= j <= max_index bins)%nat ->
     Qeq_bool (zeroed (odds (nth j bins empty_bin))) 0 = false ->
     nth j adj 0 = zeroed (odds (nth j bins empty_bin))) /\
  (forall j, Qeq_bool (zeroed (odds (nth j bins empty_bin))) 0 = false ->
     ((min_index bins <= j)%nat \/
      forall t, (j <= t < min_index bins)%nat ->
                good_hits (nth t bins empty_bin) <> Some 0%Z) ->
     ((j <= max_index bins)%nat \/
      forall t, (max_index bins < t <= j)%nat ->
                bad_hits (nth t bins empty_bin) <> Some 0%Z) ->
     nth j adj 0 = zeroed (odds (nth j bins empty_bin))).
Proof.
  intros n bins adj Hlen Hadj.
  destruct (adjust_odds_unfold n bins adj Hadj)
    as (M & mx & L & mn & EM & Em & EMi & ELi & ->).
  rewrite EMi, ELi.
  assert (G : forall j, Qeq_bool (zeroed (odds (nth j bins empty_bin))) 0 = false ->
     ((L <= j)%nat \/ forall t, (j <= t < L)%nat ->
                        good_hits (nth t bins empty_bin) <> Some 0%Z) ->
     ((j <= M)%nat \/ forall t, (M < t <= j)%nat ->
                        bad_hits (nth t bins empty_bin) <> Some 0%Z) ->
     nth j (mid_loop (S L) ((M - 1) - (L + 1))
              (high_loop (map bad_hits bins) (S M) (n - S M) false mx
                 (low_loop (map good_hits bins) L false mn (zeroed_odds bins)))) 0
     = zeroed (odds (nth j bins empty_bin))).
  { intros j Hz Hlo Hhi. rewrite <- nth_zeroed_odds in *.
    assert (E1 : nth j (low_loop (map good_hits bins) L false mn (zeroed_odds bins)) 0
                 = nth j (zeroed_odds bins) 0).
    { destruct (Nat.le_gt_cases L j) as [Hj|Hj].
      - apply low_loop_above; auto.
      - destruct Hlo as [Hlo|Hlo]; [lia|].
        apply low_loop_untriggered; auto. intros t Ht.
        rewrite nth_goods. destruct (is_zero_count _) eqn:E; auto.
        apply is_zero_count_iff in E. exfalso. apply (Hlo t); auto. }
    assert (E2 : nth j (high_loop (map bad_hits bins) (S M) (n - S M) false mx
                   (low_loop (map good_hits bins) L false mn (zeroed_odds bins))) 0
                 = nth j (zeroed_odds bins) 0).
    { rewrite <- E1. destruct (Nat.le_gt_cases j M) as [Hj|Hj].
      - apply high_loop_outside; lia.
      - destruct Hhi as [Hhi|Hhi]; [lia|].
        apply high_loop_untriggered; auto. intros t Ht.
        rewrite nth_bads. destruct (is_zero_count _) eqn:E; auto.
        apply is_zero_count_iff in E. exfalso. apply (Hhi t); auto; lia. }
    rewrite mid_loop_nonzero; rewrite E2; auto. }
  split.
  - intros j Hj Hz. apply G; auto; lia.
  - exact G.
Qed.



(** ** Claim C2 *)

(** Claim C2 (code bug): the bins with raw odds [1; 0; 2] have [L = 0] and
    [M = 2]; index 1 lies strictly between them with adjusted_odds 0 and a
    nonzero next value, so the claim requires [(1 + 2) / 2].  The interior
    loop [range(L + 1, M - 1)] = [range(1, 1)] is empty and leaves it 0. *)
Theorem adjust_odds_interior_gap :
  min_index [mk_bin 1 1; mk_bin 0 1; mk_bin 2 1] = 0%nat /\
  max_index [mk_bin 1 1; mk_bin 0 1; mk_bin 2 1] = 2%nat /\
  adjust_odds 3 [mk_bin 1 1; mk_bin 0 1; mk_bin 2 1] = Ok [1; 0; 2].
Proof. split; [|split]; reflexivity. Qed.

(** ** Claim C10 *)

(** The theorem for claim C10 at bin 2 of the bins with raw odds
    [1; 0; 2]. *)
Lemma adjust_odds_frame_witness :
  adjust_odds 3 [mk_bin 1 1; mk_bin 0 1; mk_bin 2 1] = Ok [1; 0; 2] /\
  nth 2 [1; 0; 2] 0 = zeroed (odds (mk_bin 2 1)).
Proof.
  split; [reflexivity|].
  apply (proj1 (adjust_odds_frame 3 [mk_bin 1 1; mk_bin 0 1; mk_bin 2 1]
                  [1; 0; 2] eq_refl eq_refl) 2%nat).
  - vm_compute. lia.
  - reflexivity.
Defined.

(** The same bins from [fit] (three bins, [bad_flag = False]): bin 1 is
    left at 0 and the score step then calls [math.log2(0)], so [fit] fails
    with a math domain error. *)
Lemma fit_interior_gap_crash :
  let c := {| n_bins := 3; standard_score := 500; standard_odds := 1 # 100;
              pdo := 20; bad_flag := false |} in
  let x := [1#10; 1#10; 1#2; 9#10; 9#10; 9#10] in
  let y := [1; 0; 0; 1; 1; 0]%Z in
  calc_raw_bins c x y = [mk_bin 1 1; mk_bin 0 1; mk_bin 2 1] /\
  fit c x y = Err MathDomainError.
Proof.
  intros c x y.
  assert (H : fit_odds c x y = Ok ([mk_bin 1 1; mk_bin 0 1; mk_bin 2 1], [1; 0; 2]))
    by (vm_compute; reflexivity).
  split; [vm_compute; reflexivity|].
  unfold fit, fit_scores. rewrite H. reflexivity.
Qed.

(** ** Claim C3 *)

(** Claim C3 (code bug): the guard of line 65 joins its two tests with
    [and], so it fires only when neither input is a 1-d array.  With [x] a
    1-d array of length 2 and [y] a Python list of length 2 it passes and
    [y.shape] then raises AttributeError; with [y] a 2-d array of shape
    (2, 1) the whole guard passes.  Two 1-d arrays of different lengths
    are rejected, as the claim says. *)
Theorem fit_guard_one_sided :
  fit_guard (NdArray [2%nat]) (OtherSeq 2) = Err AttributeError /\
  fit_guard (NdArray [2%nat]) (NdArray [2%nat; 1%nat]) = Ok tt /\
  fit_guard (NdArray [2%nat]) (NdArray [3%nat]) = Err ShapeError.
Proof. repeat split. Qed.

(** ** Claim C4 *)

(** Claim C4 (code bug): two bins, [bad_flag = True]; the sample at
    probability 0 gets [p' = 1.0] and bin index [int(1.0 / 0.5) = 2],
    outside [range(2)], so the aligned groupby drops it: the bins hold 4
    of the 5 samples, and the repair still succeeds. *)
Theorem calc_bins_drops_p_zero :
  let c := {| n_bins := 2; standard_score := 500; standard_odds := 1 # 100;
              pdo := 20; bad_flag := true |} in
  let x := [0; 1#5; 1#5; 7#10; 7#10] in
  let y := [0; 0; 1; 0; 1]%Z in
  bin_index c 0 = 2%Z /\
  total_hits (calc_raw_bins c x y) = 4%Z /\
  length x = 5%nat /\
  fit_odds c x y = Ok ([mk_bin 1 1; mk_bin 1 1], [1; 1]).
Proof. intros c x y. vm_compute. repeat split. Qed.

(** ** Claim C9 *)

Lemma min_odds_of_all_zero : forall l,
  forallb (fun q => Qeq_bool q 0) l = true -> min_odds_of l = None.
Proof.
  intros l H. unfold min_odds_of.
  replace (filter is_nonzero l) with (@nil Q); [reflexivity|].
  induction l as [|h t IH]; simpl in *; auto.
  apply andb_true_iff in H as [H1 H2].
  unfold is_nonzero at 1. rewrite H1. simpl. apply IH; auto.
Qed.

(** Claim C9: when every bin has zero or undefined odds, [fit] reports an
    error to its caller and produces no mapping: the ValueError that
    Python's [min] raises on the empty sequence of nonzero odds
    (line 165). *)
Theorem fit_degenerate_odds : forall c x y,
  length x = length y ->
  forallb (fun b => Qeq_bool (zeroed (odds b)) 0) (calc_raw_bins c x y) = true ->
  fit c x y = Err EmptySequence.
Proof.
  intros c x y Hl Hz.
  assert (Hm : min_odds_of (zeroed_odds (calc_raw_bins c x y)) = None).
  { apply min_odds_of_all_zero.
    unfold zeroed_odds. clear Hl. induction (calc_raw_bins c x y) as [|b t IH];
      simpl in *; auto.
    apply andb_true_iff in Hz as [H1 H2]. rewrite H1, IH; auto. }
  unfold fit, fit_guard. simpl. rewrite Hl, Nat.eqb_refl. simpl.
  unfold fit_scores, fit_odds, adjust_odds. rewrite Hm.
  destruct (max_odds_of _) as [[M mx]|]; reflexivity.
Qed.

(** The theorem for claim C9 with the default configuration on two samples
    labelled good only (no bad sample: every bin's odds is inf or NaN). *)
Lemma fit_degenerate_odds_witness :
  length [1#10; 1#2] = length [0; 0]%Z /\
  fit default_config [1#10; 1#2] [0; 0]%Z = Err EmptySequence.
Proof.
  split; [reflexivity|].
  apply fit_degenerate_odds; [reflexivity|vm_compute; reflexivity].
Defined.

(** ** Scores: truncation and the logarithm *)

Lemma py_int_spec : forall v,
  ((0 <= v)%R -> (IZR (py_int v) <= v < IZR (py_int v) + 1)%R) /\
  ((v < 0)%R -> (IZR (py_int v) - 1 < v <= IZR (py_int v))%R).
Proof.
  intros v. unfold py_int. destruct (Rle_dec 0 v) as [H|H].
  - destruct (base_Int_part v) as [H1 H2]. split; intros; split; lra.
  - destruct (base_Int_part (- v)) as [H1 H2]. rewrite opp_IZR.
    split; intros; split; lra.
Qed.

Lemma py_int_unique : forall v z, (0 <= v)%R -> (IZR z <= v < IZR z + 1)%R ->
  py_int v = z.
Proof.
  intros v z H [H1 H2]. unfold py_int. destruct (Rle_dec 0 v) as [_|]; [|lra].
  symmetry. apply Int_part_spec. split; lra.
Qed.

Lemma py_int_le : forall v w, (v <= w)%R -> (py_int v <= py_int w)%Z.
Proof.
  intros v w H.
  destruct (py_int_spec v) as [Hv1 Hv2]. destruct (py_int_spec w) as [Hw1 Hw2].
  destruct (Rle_lt_dec 0 v) as [Hv|Hv]; destruct (Rle_lt_dec 0 w) as [Hw|Hw].
  - specialize (Hv1 Hv). specialize (Hw1 Hw).
    assert (IZR (py_int v) < IZR (py_int w + 1))%R by (rewrite plus_IZR; lra).
    apply lt_IZR in H0. lia.
  - lra.
  - specialize (Hv2 Hv). specialize (Hw1 Hw).
    assert (IZR (py_int v) < IZR 1)%R by lra.
    assert (IZR (-1) < IZR (py_int w))%R by lra.
    apply lt_IZR in H0. apply lt_IZR in H1. lia.
  - specialize (Hv2 Hv). specialize (Hw2 Hw).
    assert (IZR (py_int v) < IZR (py_int w + 1))%R by (rewrite plus_IZR; lra).
    apply lt_IZR in H0. lia.
Qed.

Lemma py_int_IZR : forall z, py_int (IZR z) = z.
Proof.
  intros z. destruct (Z.le_gt_cases 0 z) as [H|H].
  - apply py_int_unique; [apply IZR_le; auto|lra].
  - unfold py_int. destruct (Rle_dec 0 (IZR z)) as [H'|_].
    + apply le_IZR in H'. lia.
    + rewrite <- opp_IZR. rewrite <- (Int_part_spec (IZR (- z)) (- z)); [lia|split; lra].
Qed.

Lemma ln2_pos : (0 < ln 2)%R.
Proof. rewrite <- ln_1. apply ln_increasing; lra. Qed.

Lemma ln_le' : forall x y, (0 < x)%R -> (x <= y)%R -> (ln x <= ln y)%R.
Proof.
  intros x y Hx Hxy. destruct (Rle_lt_or_eq_dec x y Hxy) as [H|H].
  - left. apply ln_increasing; auto.
  - subst; lra.
Qed.

Lemma Q2R_pos : forall q, 0 < q -> (0 < Q2R q)%R.
Proof.
  intros q H. apply Qlt_Rlt in H. unfold Q2R in H at 1. simpl in H.
  rewrite Rmult_0_l in H. exact H.
Qed.

Lemma Qdiv_pos_inv : forall a s, 0 < s -> 0 < a / s -> 0 < a.
Proof.
  intros a s Hs H. setoid_replace a with ((a / s) * s).
  - apply Qmult_lt_0_compat; auto.
  - field. intros E. rewrite E in Hs. discriminate.
Qed.

Lemma score_of_ok : forall c a, 0 < a / standard_odds c ->
  score_of c a = Ok (py_int (score_value c a)).
Proof.
  intros c a H. unfold score_of.
  destruct (Qle_bool (a / standard_odds c) 0) eqn:E; auto.
  apply Qle_bool_iff in E. exfalso. apply (Qlt_not_le _ _ H E).
Qed.

(** ** Claim C5 *)

(** Claim C5 (amended): where [math.log2] is defined (positive
    [adjusted_odds / standard_odds]) the per-bin score is an integer [s]
    obtained from [v = standard_score + pdo * log2(adjusted_odds /
    standard_odds)] by [int()], truncation toward zero: [s <= v < s + 1]
    for [v >= 0] and [s - 1 < v <= s] for [v < 0]. *)
Theorem score_of_truncates : forall c a,
  0 < a / standard_odds c ->
  exists s, score_of c a = Ok s /\
    ((0 <= score_value c a)%R ->
       (IZR s <= score_value c a < IZR s + 1)%R) /\
    ((score_value c a < 0)%R ->
       (IZR s - 1 < score_value c a <= IZR s)%R).
Proof.
  intros c a H. exists (py_int (score_value c a)).
  split; [apply score_of_ok; auto|]. apply py_int_spec.
Qed.

Lemma score_value_default_3 :
  score_value default_config (3 # 100) = (500 + 20 * (ln 3 / ln 2))%R.
Proof.
  unfold score_value. simpl. unfold Q2R. simpl.
  replace (3 * / 100 / (1 * / 100))%R with 3%R by field. reflexivity.
Qed.

Lemma log2_3_bounds : (63 / 40 < ln 3 / ln 2 < 8 / 5)%R.
Proof.
  pose proof ln2_pos as H2.
  assert (A : (63 * ln 2 < 40 * ln 3)%R).
  { assert (E1 : ln (2 ^ 63) = (INR 63 * ln 2)%R) by (apply ln_pow; lra).
    assert (E2 : ln (3 ^ 40) = (INR 40 * ln 3)%R) by (apply ln_pow; lra).
    replace (INR 63) with 63%R in E1 by (rewrite INR_IZR_INZ; reflexivity).
    replace (INR 40) with 40%R in E2 by (rewrite INR_IZR_INZ; reflexivity).
    rewrite <- E1, <- E2. apply ln_increasing.
    - apply pow_lt; lra.
    - rewrite !pow_IZR. apply IZR_lt. reflexivity. }
  assert (B : (5 * ln 3 < 8 * ln 2)%R).
  { assert (E1 : ln (3 ^ 5) = (INR 5 * ln 3)%R) by (apply ln_pow; lra).
    assert (E2 : ln (2 ^ 8) = (INR 8 * ln 2)%R) by (apply ln_pow; lra).
    replace (INR 5) with 5%R in E1 by (rewrite INR_IZR_INZ; reflexivity).
    replace (INR 8) with 8%R in E2 by (rewrite INR_IZR_INZ; reflexivity).
    rewrite <- E1, <- E2. apply ln_increasing.
    - apply pow_lt; lra.
    - rewrite !pow_IZR. apply IZR_lt. reflexivity. }
  set (q := (ln 3 / ln 2)%R).
  assert (Eq : (ln 3 = q * ln 2)%R) by (unfold q; field; lra).
  rewrite Eq in A, B. split; nra.
Qed.

(** Claim C5 fails as stated: with the default configuration and
    adjusted_odds 0.03, [v = 500 + 20 * log2 3] lies within 1/2 of 532, so
    [round] would give 532, while [int()] gives 531. *)
Lemma score_of_not_rounded :
  score_of default_config (3 # 100) = Ok 531%Z /\
  (Rabs (score_value default_config (3 # 100) - 532) < 1 / 2)%R.
Proof.
  rewrite score_of_ok by reflexivity. rewrite score_value_default_3.
  pose proof log2_3_bounds as [H1 H2].
  split.
  - f_equal. apply py_int_unique; [|split]; lra.
  - apply Rabs_def1; lra.
Qed.

(** The theorem for claim C5 at the default configuration and
    adjusted_odds 0.03. *)
Lemma score_of_truncates_witness :
  0 < (3 # 100) / standard_odds default_config /\
  exists s, score_of default_config (3 # 100) = Ok s /\
    ((0 <= score_value default_config (3 # 100))%R ->
       (IZR s <= score_value default_config (3 # 100) < IZR s + 1)%R) /\
    ((score_value default_config (3 # 100) < 0)%R ->
       (IZR s - 1 < score_value default_config (3 # 100) <= IZR s)%R).
Proof.
  split; [reflexivity|].
  apply score_of_truncates. reflexivity.
Defined.

(** ** Claim C6 *)

(** Claim C6 (amended): with [pdo >= 0] and [standard_odds > 0] the score
    is a non-decreasing function of the bin's adjusted_odds: a bin with
    larger adjusted_odds never gets a smaller score.  The scores follow the
    adjusted odds, which the repair does not make monotone across bins. *)
Theorem score_of_monotone : forall c a b,
  (0 <= pdo c)%Z -> 0 < standard_odds c -> 0 < a -> a <= b ->
  exists sa sb, score_of c a = Ok sa /\ score_of c b = Ok sb /\ (sa <= sb)%Z.
Proof.
  intros c a b Hp Hs Ha Hab.
  assert (Hb : 0 < b) by (eapply Qlt_le_trans; eauto).
  assert (Ha' : 0 < a / standard_odds c)
    by (apply Qlt_shift_div_l; auto; rewrite Qmult_0_l; auto).
  assert (Hb' : 0 < b / standard_odds c)
    by (apply Qlt_shift_div_l; auto; rewrite Qmult_0_l; auto).
  exists (py_int (score_value c a)), (py_int (score_value c b)).
  split; [apply score_of_ok; auto|]. split; [apply score_of_ok; auto|].
  apply py_int_le. unfold score_value.
  apply Rplus_le_compat_l. apply Rmult_le_compat_l; [apply IZR_le; auto|].
  unfold Rdiv at 1 3. apply Rmult_le_compat_r.
  { left. apply Rinv_0_lt_compat, ln2_pos. }
  pose proof (Q2R_pos _ Hs) as Hs2.
  apply ln_le'.
  - apply Rdiv_lt_0_compat; auto. apply Q2R_pos; auto.
  - unfold Rdiv. apply Rmult_le_compat_r.
    + left. apply Rinv_0_lt_compat; auto.
    + apply Qle_Rle; auto.
Qed.

(** The theorem for claim C6 at adjusted_odds 1 and 2, standard_odds 1. *)
Lemma score_of_monotone_witness :
  let c := {| n_bins := 2; standard_score := 500; standard_odds := 1;
              pdo := 20; bad_flag := true |} in
  (0 <= pdo c)%Z /\ 0 < standard_odds c /\ 0 < 1 /\ 1 <= 2 /\
  exists sa sb, score_of c 1 = Ok sa /\ score_of c 2 = Ok sb /\ (sa <= sb)%Z.
Proof.
  intros c. split; [discriminate|]. split; [reflexivity|].
  split; [reflexivity|]. split; [discriminate|].
  apply score_of_monotone; [discriminate|reflexivity|reflexivity|discriminate].
Defined.

Lemma score_value_pow2 : forall c k,
  standard_odds c = 1 ->
  score_value c (inject_Z (2 ^ Z.of_nat k)) =
    (IZR (standard_score c) + IZR (pdo c) * INR k)%R.
Proof.
  intros c k Hs. unfold score_value. rewrite Hs. f_equal. f_equal.
  unfold Q2R. simpl.
  replace (IZR (2 ^ Z.of_nat k) * / 1 / (1 * / 1))%R with (2 ^ k)%R.
  - rewrite ln_pow by lra. field. apply Rgt_not_eq, ln2_pos.
  - rewrite <- pow_IZR. field.
Qed.

(** Claim C6 fails as stated: two bins, [bad_flag = True], standard_odds 1,
    with the bad rate rising with the probability (1 of 3 samples bad
    below 0.5, 1 of 2 above).  After the reordering by ascending [prob_l]
    the scores are [520; 500], decreasing. *)
Lemma fit_scores_decreasing :
  let c := {| n_bins := 2; standard_score := 500; standard_odds := 1;
              pdo := 20; bad_flag := true |} in
  fit_scores c [1#10; 1#10; 1#10; 3#5; 3#5] [0; 0; 1; 1; 0]%Z
  = Ok [520; 500]%Z.
Proof.
  intros c.
  assert (H : fit_odds c [1#10; 1#10; 1#10; 3#5; 3#5] [0; 0; 1; 1; 0]%Z
              = Ok ([mk_bin 1 1; mk_bin 2 1], [inject_Z (2 ^ Z.of_nat 0);
                                              inject_Z (2 ^ Z.of_nat 1)]))
    by (vm_compute; reflexivity).
  unfold fit_scores. rewrite H. simpl snd. unfold final_order. simpl.
  change (inject_Z (Z.pow_pos 2 1)) with (inject_Z (2 ^ Z.of_nat 1)).
  change (inject_Z 1) with (inject_Z (2 ^ Z.of_nat 0)).
  rewrite !score_value_pow2 by reflexivity. simpl.
  replace (500 + 20 * 1)%R with (IZR 520) by (simpl; lra).
  replace (500 + 20 * 0)%R with (IZR 500) by lra.
  rewrite !py_int_IZR. reflexivity.
Qed.

(** ** The segment index of [transform] *)

Lemma seg_index_floor : forall c p, (0 < n_bins c)%nat -> 0 <= p ->
  seg_index c p = Qfloor (p * inject_Z (Z.of_nat (n_bins c)) + (1 # 2)).
Proof.
  intros c p Hn Hp.
  set (N := inject_Z (Z.of_nat (n_bins c))).
  assert (HN : 0 < N) by (unfold N, Qlt; simpl; lia).
  assert (Heq : (p + step c / 2) / step c == p * N + (1 # 2)).
  { unfold step. fold N. field. intros E. rewrite E in HN.
    apply (Qlt_irrefl 0); auto. }
  assert (Hpos : 0 <= p * N + (1 # 2)).
  { apply Qle_trans with (p * N).
    - apply Qmult_le_0_compat; auto. apply Qlt_le_weak; auto.
    - Lqa.lra. }
  unfold seg_index, py_int_q.
  assert (Hb : Qle_bool 0 ((p + step c / 2) / step c) = true)
    by (apply Qle_bool_iff; rewrite Heq; auto).
  rewrite Hb. apply Qfloor_comp; auto.
Qed.

Lemma seg_index_range : forall c p, (0 < n_bins c)%nat -> 0 <= p -> p < 1 ->
  (0 <= seg_index c p <= Z.of_nat (n_bins c))%Z.
Proof.
  intros c p Hn Hp Hp1. rewrite seg_index_floor by auto.
  set (N := inject_Z (Z.of_nat (n_bins c))).
  assert (HN : 0 < N) by (unfold N, Qlt; simpl; lia).
  set (x := p * N + (1 # 2)).
  assert (Hx0 : 0 <= x).
  { unfold x. apply Qle_trans with (p * N).
    - apply Qmult_le_0_compat; auto. apply Qlt_le_weak; auto.
    - Lqa.lra. }
  assert (HpN : p * N < 1 * N) by (apply Qmult_lt_r; auto).
  pose proof (Qlt_floor x) as Hf1. pose proof (Qfloor_le x) as Hf2.
  split.
  - assert (H : inject_Z 0 < inject_Z (Qfloor x + 1))
      by (eapply Qle_lt_trans; eauto).
    rewrite <- Zlt_Qlt in H. lia.
  - assert (H : inject_Z (Qfloor x) < inject_Z (Z.of_nat (n_bins c) + 1)).
    { rewrite inject_Z_plus. fold N. change (inject_Z 1) with 1.
      assert (Ex : x == p * N + (1 # 2)) by reflexivity. Lqa.lra. }
    rewrite <- Zlt_Qlt in H. lia.
Qed.

Lemma calc_mapping_length : forall c s0 rest,
  exists mapping, calc_mapping c (s0 :: rest) = Ok mapping /\
                  length mapping = S (n_bins c).
Proof.
  intros c s0 rest. eexists. split; [reflexivity|].
  rewrite length_map, length_seq. reflexivity.
Qed.

(** ** Claim C7 *)

(** Claim C7 (amended): for every mapping table built by
    [__calc_mapping_df] from a nonempty score column, with [n_bins > 0],
    and every [p] in [0, 1), the segment index lies in [0 .. n_bins], so
    the lookup succeeds and [transform] returns an integer. *)
Theorem transform_total : forall c scores p,
  (0 < n_bins c)%nat -> scores <> [] -> 0 <= p -> p < 1 ->
  exists mapping z,
    calc_mapping c scores = Ok mapping /\
    (0 <= seg_index c p <= Z.of_nat (n_bins c))%Z /\
    transform_one c mapping p = Ok z.
Proof.
  intros c scores p Hn Hs Hp Hp1.
  destruct scores as [|s0 rest]; [congruence|].
  destruct (calc_mapping_length c s0 rest) as (m & Hm & Hlen).
  pose proof (seg_index_range c p Hn Hp Hp1) as Hr.
  unfold transform_one.
  destruct (nth_error m (Z.to_nat (seg_index c p))) as [[slope icpt]|] eqn:E.
  - exists m, (py_round (slope * p + icpt)). split; [auto|]. split; [auto|].
    destruct (Z.ltb_spec (seg_index c p) 0); [lia|]. rewrite E. reflexivity.
  - exfalso. apply nth_error_None in E. lia.
Qed.

(** The theorem for claim C7 on two bins with scores [500; 520] at
    [p = 0.99]. *)
Lemma transform_total_witness :
  let c := {| n_bins := 2; standard_score := 500; standard_odds := 1;
              pdo := 20; bad_flag := false |} in
  (0 < n_bins c)%nat /\ [500; 520]%Z <> [] /\ 0 <= 99 # 100 /\ 99 # 100 < 1 /\
  exists mapping z,
    calc_mapping c [500; 520]%Z = Ok mapping /\
    (0 <= seg_index c (99 # 100) <= Z.of_nat (n_bins c))%Z /\
    transform_one c mapping (99 # 100) = Ok z.
Proof.
  intros c. split; [simpl; lia|]. split; [discriminate|].
  split; [discriminate|]. split; [reflexivity|].
  apply transform_total; [simpl; lia|discriminate|discriminate|reflexivity].
Defined.

(** Claim C7 fails as stated: nothing clamps the segment index.  For
    [p = 2] the index is 4, [mapping_df] has rows 0 to 2, the left merge
    yields NaN and [int(round(nan))] raises. *)
Lemma transform_no_clamp :
  let c := {| n_bins := 2; standard_score := 500; standard_odds := 1;
              pdo := 20; bad_flag := false |} in
  exists mapping,
    calc_mapping c [500; 520]%Z = Ok mapping /\
    seg_index c 2 = 4%Z /\
    transform c mapping [1 # 2; 2] = Err NaNToInteger.
Proof. intros c. eexists. split; [reflexivity|]. vm_compute. split; reflexivity. Qed.

(** ** Claim C8 *)

Lemma mapM_spec : forall {A B} (f : A -> result B) l ys,
  mapM f l = Ok ys ->
  length ys = length l /\
  forall k a, nth_error l k = Some a ->
              exists b, f a = Ok b /\ nth_error ys k = Some b.
Proof.
  intros A B f l. induction l as [|a t IH]; intros ys H; simpl in H.
  - injection H as <-. split; auto. intros [|k] a H; discriminate.
  - destruct (f a) as [b|e] eqn:Ef; simpl in H; [|discriminate].
    destruct (mapM f t) as [ys'|e] eqn:Et; simpl in H; [|discriminate].
    injection H as <-. destruct (IH ys' eq_refl) as [IH1 IH2].
    split; [simpl; auto|].
    intros [|k] a' Hk; simpl in Hk.
    + injection Hk as <-. exists b. auto.
    + apply IH2; auto.
Qed.

(** Claim C8: [transform] maps its input row by row, keeping length and
    order; for a probability [p >= 0] the row's segment index is
    [floor((p + step/2) / step)], the slope and intercept are those of
    that row of the mapping table, and the result is
    [round(slope * p + intercept)].  (The binning of [fit] uses
    [int(p' / step)], without the [step/2] offset: [bin_index].) *)
Theorem transform_spec : forall c mapping x ys,
  (0 < n_bins c)%nat ->
  transform c mapping x = Ok ys ->
  length ys = length x /\
  forall k p, nth_error x k = Some p -> 0 <= p ->
    exists slope intercept,
      seg_index c p = Qfloor ((p + step c / 2) / step c) /\
      nth_error mapping (Z.to_nat (seg_index c p)) = Some (slope, intercept) /\
      nth_error ys k = Some (py_round (slope * p + intercept)).
Proof.
  intros c mapping x ys Hn H.
  destruct (mapM_spec _ _ _ H) as [Hl Hk]. split; auto.
  intros k p Hp Hp0. destruct (Hk k p Hp) as (b & Hb & Hys).
  unfold transform_one in Hb.
  destruct (Z.ltb (seg_index c p) 0) eqn:Elt; [discriminate|].
  destruct (nth_error mapping (Z.to_nat (seg_index c p))) as [[s i]|] eqn:E;
    [|discriminate].
  injection Hb as <-. exists s, i. split; [|split; auto].
  unfold seg_index, py_int_q.
  apply Z.ltb_ge in Elt. unfold seg_index, py_int_q in Elt.
  destruct (Qle_bool 0 ((p + step c / 2) / step c)) eqn:Eb; auto.
  exfalso. clear Elt.
  assert (Hle : 0 <= (p + step c / 2) / step c).
  { unfold step. set (N := inject_Z (Z.of_nat (n_bins c))).
    assert (HN : 0 < N) by (unfold N, Qlt; simpl; lia).
    setoid_replace ((p + 1 / N / 2) / (1 / N)) with (p * N + (1 # 2)).
    - apply Qle_trans with (p * N).
      + apply Qmult_le_0_compat; auto. apply Qlt_le_weak; auto.
      + Lqa.lra.
    - field. intros E'. rewrite E' in HN. apply (Qlt_irrefl 0); auto. }
  apply Qle_bool_iff in Hle. congruence.
Qed.

(** The theorem for claim C8 on two bins with scores [500; 520] and four
    probabilities. *)
Lemma transform_spec_witness :
  let c := {| n_bins := 2; standard_score := 500; standard_odds := 1;
              pdo := 20; bad_flag := false |} in
  let m := [(80, 480); (40, 490); (40, 490)] in
  transform c m [0; 1#4; 1#2; 99#100] = Ok [480; 500; 510; 530]%Z /\
  length [480; 500; 510; 530]%Z = length [0; 1#4; 1#2; 99#100].
Proof.
  intros c m.
  assert (H : transform c m [0; 1#4; 1#2; 99#100] = Ok [480; 500; 510; 530]%Z)
    by (vm_compute; reflexivity).
  split; [exact H|].
  exact (proj1 (transform_spec c m _ _ ltac:(simpl; lia) H)).
Defined.

(** ** Floors, truncation and rounding *)

Lemma Qfloor_unique : forall x z, inject_Z z <= x -> x < inject_Z z + 1 ->
  Qfloor x = z.
Proof.
  intros x z H1 H2. pose proof (Qfloor_le x). pose proof (Qlt_floor x).
  assert (A : inject_Z (Qfloor x) < inject_Z (z + 1))
    by (rewrite inject_Z_plus; change (inject_Z 1) with 1; Lqa.lra).
  assert (B : inject_Z z < inject_Z (Qfloor x + 1)) by Lqa.lra.
  rewrite <- Zlt_Qlt in A, B. lia.
Qed.

Lemma Nq_pos : forall c, (0 < n_bins c)%nat -> 0 < inject_Z (Z.of_nat (n_bins c)).
Proof. intros c H. unfold Qlt. simpl. lia. Qed.

Lemma mean_prob_scaled : forall c k, (0 < n_bins c)%nat ->
  mean_prob c k * inject_Z (Z.of_nat (n_bins c)) == inject_Z (Z.of_nat k) + (1 # 2).
Proof.
  intros c k Hn. pose proof (Nq_pos c Hn) as HN.
  unfold mean_prob, prob_r, prob_l, step. field. intros E. rewrite E in HN.
  apply (Qlt_irrefl 0); auto.
Qed.

(** ** Bin membership *)

(** ** Counts of a bin *)

Lemma sum_binary_bounds : forall (l : list (Q * Z)),
  (forall s, In s l -> is_binary (snd s) = true) ->
  (0 <= sumZ (map snd l) <= Z.of_nat (length l))%Z.
Proof.
  induction l as [|s l IH]; intros H; simpl; [lia|].
  assert (Hs : is_binary (snd s) = true) by (apply H; left; auto).
  assert (IH' := IH (fun t Ht => H t (or_intror Ht))).
  unfold is_binary in Hs. apply orb_true_iff in Hs.
  destruct Hs as [Hs|Hs]; apply Z.eqb_eq in Hs; lia.
Qed.

Lemma calc_bin_counts_aux : forall c x y k,
  (forall l, In l y -> is_binary l = true) ->
  calc_bin c x y k = empty_bin \/
  exists h g d, calc_bin c x y k =
      {| hits := Some h; good_hits := Some g; bad_hits := Some d |} /\
    (0 <= g)%Z /\ (0 <= d)%Z /\ (g + d = h)%Z /\ (0 < h)%Z.
Proof.
  intros c x y k Hy. unfold calc_bin.
  set (grp := filter _ (combine x y)).
  assert (Hb : forall s, In s grp -> is_binary (snd s) = true).
  { intros s Hs. unfold grp in Hs. apply filter_In in Hs as [Hs _].
    destruct s as [p l]. apply in_combine_r in Hs. apply Hy; auto. }
  pose proof (sum_binary_bounds grp Hb) as Hsum.
  destruct grp as [|s t] eqn:Eg; [left; reflexivity|right].
  set (h := Z.of_nat (length (s :: t))) in *.
  assert (Hh : (0 < h)%Z) by (unfold h; simpl; lia).
  destruct (bad_flag c); do 3 eexists; (split; [reflexivity|]); lia.
Qed.

(** With binary labels, each row of the binning table is either all NaN
    (no sample) or has non-negative good and bad counts that add up to its
    hits (lines 120-130). *)
Theorem calc_bin_counts : forall c x y k,
  (forall l, In l y -> is_binary l = true) ->
  calc_bin c x y k = empty_bin \/
  exists h g d, calc_bin c x y k =
      {| hits := Some h; good_hits := Some g; bad_hits := Some d |} /\
    (0 <= g)%Z /\ (0 <= d)%Z /\ (g + d = h)%Z /\ (0 < h)%Z.
Proof. intros c x y k Hy. apply calc_bin_counts_aux. auto. Qed.

(** ** The tails written by the low-end and high-end loops *)

Lemma pow2_pos : forall e, 0 < inject_Z (2 ^ Z.of_nat e).
Proof.
  intros e. unfold Qlt. simpl. rewrite Z.mul_1_r. apply Z.pow_pos_nonneg; lia.
Qed.

Lemma pow2_succ : forall e,
  inject_Z (2 ^ Z.of_nat (S e)) == 2 * inject_Z (2 ^ Z.of_nat e).
Proof.
  intros e. rewrite Nat2Z.inj_succ, Z.pow_succ_r by lia.
  rewrite inject_Z_mult. reflexivity.
Qed.

Lemma pow2_nonzero : forall e, ~ inject_Z (2 ^ Z.of_nat e) == 0.
Proof.
  intros e E. pose proof (pow2_pos e) as H. rewrite E in H.
  apply (Qlt_irrefl 0); auto.
Qed.

Section LoopTails.

Variable goods bads : list (option Z).

Lemma low_loop_triggered : forall k m adj i,
  (k <= length adj)%nat -> (i < k)%nat ->
  nth i (low_loop goods k true m adj) 0 == m / inject_Z (2 ^ Z.of_nat (k - i)).
Proof.
  induction k as [|k IH]; intros m adj i Hk Hi; [lia|].
  simpl low_loop.
  destruct (Nat.eq_dec i k) as [->|Hne].
  - rewrite low_loop_above by lia. rewrite nth_upd_eq by lia.
    replace (S k - k)%nat with 1%nat by lia. reflexivity.
  - rewrite IH by (rewrite ?length_upd; lia).
    replace (S k - i)%nat with (S (k - i)) by lia.
    rewrite pow2_succ. field. apply pow2_nonzero.
Qed.

Lemma low_loop_skip : forall k j0 m adj, (j0 < k)%nat ->
  (forall t, (j0 < t < k)%nat -> is_zero_count (nth t goods None) = false) ->
  low_loop goods k false m adj = low_loop goods (S j0) false m adj.
Proof.
  induction k as [|k IH]; intros j0 m adj Hj Hz; [lia|].
  destruct (Nat.eq_dec j0 k) as [->|Hne]; [reflexivity|].
  simpl low_loop. rewrite (Hz k) by lia. simpl.
  apply IH; [lia|]. intros t Ht. apply Hz. lia.
Qed.

Lemma low_loop_tail : forall k j0 m adj i,
  (k <= length adj)%nat -> (j0 < k)%nat ->
  is_zero_count (nth j0 goods None) = true ->
  (forall t, (j0 < t < k)%nat -> is_zero_count (nth t goods None) = false) ->
  (i <= j0)%nat ->
  nth i (low_loop goods k false m adj) 0 == m / inject_Z (2 ^ Z.of_nat (S j0 - i)).
Proof.
  intros k j0 m adj i Hk Hj Hz0 Hz Hi.
  rewrite (low_loop_skip k j0) by auto.
  simpl low_loop. rewrite Hz0. simpl orb.
  destruct (Nat.eq_dec i j0) as [->|Hne].
  - rewrite low_loop_above by lia. rewrite nth_upd_eq by lia.
    replace (S j0 - j0)%nat with 1%nat by lia. reflexivity.
  - rewrite low_loop_triggered by (rewrite ?length_upd; lia).
    replace (S j0 - i)%nat with (S (j0 - i)) by lia.
    rewrite pow2_succ. field. apply pow2_nonzero.
Qed.

Lemma high_loop_triggered : forall cnt i m adj j,
  (i + cnt <= length adj)%nat -> (i <= j < i + cnt)%nat ->
  nth j (high_loop bads i cnt true m adj) 0 ==
    m * inject_Z (2 ^ Z.of_nat (S j - i)).
Proof.
  induction cnt as [|c IH]; intros i m adj j Hk Hj; [lia|].
  simpl high_loop.
  destruct (Nat.eq_dec j i) as [->|Hne].
  - rewrite high_loop_outside by lia. rewrite nth_upd_eq by lia.
    replace (S i - i)%nat with 1%nat by lia. reflexivity.
  - rewrite IH by (rewrite ?length_upd; lia).
    replace (S j - i)%nat with (S (S j - S i)) by lia.
    rewrite pow2_succ. ring.
Qed.

Lemma high_loop_skip : forall cnt i k0 m adj, (i <= k0 < i + cnt)%nat ->
  (forall t, (i <= t < k0)%nat -> is_zero_count (nth t bads None) = false) ->
  high_loop bads i cnt false m adj =
  high_loop bads k0 (cnt - (k0 - i)) false m adj.
Proof.
  induction cnt as [|c IH]; intros i k0 m adj Hk Hz; [lia|].
  destruct (Nat.eq_dec k0 i) as [->|Hne].
  - rewrite Nat.sub_diag, Nat.sub_0_r. reflexivity.
  - replace (S c - (k0 - i))%nat with (c - (k0 - S i))%nat by lia.
    simpl high_loop. rewrite (Hz i) by lia. simpl orb.
    apply IH; [lia|]. intros t Ht. apply Hz. lia.
Qed.

Lemma high_loop_tail : forall cnt i k0 m adj j,
  (i + cnt <= length adj)%nat -> (i <= k0 < i + cnt)%nat ->
  is_zero_count (nth k0 bads None) = true ->
  (forall t, (i <= t < k0)%nat -> is_zero_count (nth t bads None) = false) ->
  (k0 <= j < i + cnt)%nat ->
  nth j (high_loop bads i cnt false m adj) 0 ==
    m * inject_Z (2 ^ Z.of_nat (S j - k0)).
Proof.
  intros cnt i k0 m adj j Hk Hk0 Hz0 Hz Hj.
  rewrite (high_loop_skip cnt i k0) by auto.
  destruct (cnt - (k0 - i))%nat as [|c] eqn:Ec; [lia|].
  simpl high_loop. rewrite Hz0. simpl orb.
  destruct (Nat.eq_dec j k0) as [->|Hne].
  - rewrite high_loop_outside by lia. rewrite nth_upd_eq by lia.
    replace (S k0 - k0)%nat with 1%nat by lia. reflexivity.
  - rewrite high_loop_triggered by (rewrite ?length_upd; lia).
    replace (S j - k0)%nat with (S (S j - S k0)) by lia.
    rewrite pow2_succ. ring.
Qed.

End LoopTails.



(** ** The score grid *)

Lemma Q2R_inject_Z : forall z, Q2R (inject_Z z) = IZR z.
Proof. intros z. unfold Q2R, inject_Z. cbn [Qnum Qden]. rewrite Rinv_1. ring. Qed.

Lemma score_of_grid : forall c k, 0 < standard_odds c ->
  score_of c (standard_odds c * inject_Z (2 ^ Z.of_nat k)) =
    Ok (standard_score c + pdo c * Z.of_nat k)%Z /\
  score_of c (standard_odds c / inject_Z (2 ^ Z.of_nat k)) =
    Ok (standard_score c - pdo c * Z.of_nat k)%Z.
Proof.
  intros c k Hso. pose proof (pow2_pos k) as Hp.
  assert (Hso0 : ~ standard_odds c == 0)
    by (intros E; rewrite E in Hso; apply (Qlt_irrefl 0); auto).
  assert (HR : (0 < Q2R (standard_odds c))%R) by (apply Q2R_pos; auto).
  assert (H2 : Q2R (inject_Z (2 ^ Z.of_nat k)) = (2 ^ k)%R)
    by (rewrite Q2R_inject_Z, <- pow_IZR; reflexivity).
  assert (H2p : (0 < 2 ^ k)%R) by (apply pow_lt; lra).
  pose proof ln2_pos as Hl2.
  split; unfold score_of.
  - assert (E : standard_odds c * inject_Z (2 ^ Z.of_nat k) / standard_odds c
                == inject_Z (2 ^ Z.of_nat k)) by (field; auto).
    replace (Qle_bool _ 0) with false.
    2:{ symmetry. destruct (Qle_bool _ 0) eqn:B; auto.
        apply Qle_bool_iff in B. rewrite E in B. exfalso. Lqa.lra. }
    f_equal. unfold score_value. rewrite Q2R_mult, H2.
    replace (Q2R (standard_odds c) * 2 ^ k / Q2R (standard_odds c))%R
      with (2 ^ k)%R by (field; lra).
    rewrite ln_pow by lra.
    replace (IZR (standard_score c) + IZR (pdo c) * (INR k * ln 2 / ln 2))%R
      with (IZR (standard_score c + pdo c * Z.of_nat k))
      by (rewrite plus_IZR, mult_IZR, <- INR_IZR_INZ; field; lra).
    apply py_int_IZR.
  - assert (E : standard_odds c / inject_Z (2 ^ Z.of_nat k) / standard_odds c
                == / inject_Z (2 ^ Z.of_nat k)) by (field; split; auto; apply pow2_nonzero).
    replace (Qle_bool _ 0) with false.
    2:{ symmetry. destruct (Qle_bool _ 0) eqn:B; auto.
        apply Qle_bool_iff in B. rewrite E in B. exfalso.
        assert (0 < / inject_Z (2 ^ Z.of_nat k)) by (apply Qinv_lt_0_compat; auto).
        Lqa.lra. }
    f_equal. unfold score_value. rewrite Q2R_div by apply pow2_nonzero. rewrite H2.
    replace (Q2R (standard_odds c) / 2 ^ k / Q2R (standard_odds c))%R
      with (/ 2 ^ k)%R by (field; lra).
    rewrite ln_Rinv, ln_pow by lra.
    replace (IZR (standard_score c) + IZR (pdo c) * (- (INR k * ln 2) / ln 2))%R
      with (IZR (standard_score c - pdo c * Z.of_nat k))
      by (rewrite minus_IZR, mult_IZR, <- INR_IZR_INZ; field; lra).
    apply py_int_IZR.
Qed.

(** The points-to-double-odds rule of lines 146-148: at [standard_odds]
    times [2 ^ k] the score is exactly [standard_score + k * pdo], and at
    [standard_odds / 2 ^ k] it is [standard_score - k * pdo]. *)
Theorem score_of_doubling : forall c k, 0 < standard_odds c ->
  score_of c (standard_odds c * inject_Z (2 ^ Z.of_nat k)) =
    Ok (standard_score c + pdo c * Z.of_nat k)%Z /\
  score_of c (standard_odds c / inject_Z (2 ^ Z.of_nat k)) =
    Ok (standard_score c - pdo c * Z.of_nat k)%Z.
Proof. intros c k H. apply score_of_grid. auto. Qed.

(** ** Rounding *)

Lemma py_round_spec : forall q,
  py_round q = Qfloor q \/
  (py_round q = (Qfloor q + 1)%Z /\ (1 # 2) <= q - inject_Z (Qfloor q)).
Proof.
  intros q. unfold py_round.
  destruct (Qlt_bool (q - inject_Z (Qfloor q)) (1 # 2)) eqn:E1; [left; auto|].
  apply Qlt_bool_false in E1.
  destruct (Qlt_bool (1 # 2) (q - inject_Z (Qfloor q))); [right; auto|].
  destruct (Z.even (Qfloor q)); [left|right]; auto.
Qed.

Lemma py_round_ge : forall q z, inject_Z z <= q -> (z <= py_round q)%Z.
Proof.
  intros q z H. pose proof (Qlt_floor q) as Hf.
  assert (A : inject_Z z < inject_Z (Qfloor q + 1)) by Lqa.lra.
  rewrite <- Zlt_Qlt in A.
  destruct (py_round_spec q) as [E|[E _]]; rewrite E; lia.
Qed.

Lemma py_round_le : forall q z, q <= inject_Z z -> (py_round q <= z)%Z.
Proof.
  intros q z H. pose proof (Qfloor_le q) as Hf.
  destruct (py_round_spec q) as [E|[E Hr]]; rewrite E.
  - assert (A : inject_Z (Qfloor q) <= inject_Z z) by Lqa.lra.
    rewrite <- Zle_Qle in A. auto.
  - assert (A : inject_Z (Qfloor q) < inject_Z z) by Lqa.lra.
    rewrite <- Zlt_Qlt in A. lia.
Qed.

Lemma py_round_Z : forall q z, q == inject_Z z -> py_round q = z.
Proof.
  intros q z H. apply Z.le_antisymm.
  - apply py_round_le. rewrite H. apply Qle_refl.
  - apply py_round_ge. rewrite H. apply Qle_refl.
Qed.

(** ** The mapping table *)

Lemma slope_intercept_at : forall pl sl pr sr p, pl < pr ->
  fst (slope_intercept pl sl pr sr) * p + snd (slope_intercept pl sl pr sr) ==
  (sl * (pr - p) + sr * (p - pl)) / (pr - pl).
Proof.
  intros pl sl pr sr p H. unfold slope_intercept. simpl. field.
  intros E. assert (pr == pl) by Lqa.lra. Lqa.lra.
Qed.

Lemma slope_intercept_left : forall pl sl pr sr, pl < pr ->
  fst (slope_intercept pl sl pr sr) * pl + snd (slope_intercept pl sl pr sr) == sl.
Proof.
  intros pl sl pr sr H. rewrite slope_intercept_at by auto. field.
  intros E. assert (pr == pl) by Lqa.lra. Lqa.lra.
Qed.

Lemma slope_intercept_right : forall pl sl pr sr, pl < pr ->
  fst (slope_intercept pl sl pr sr) * pr + snd (slope_intercept pl sl pr sr) == sr.
Proof.
  intros pl sl pr sr H. rewrite slope_intercept_at by auto. field.
  intros E. assert (pr == pl) by Lqa.lra. Lqa.lra.
Qed.

Lemma slope_intercept_between : forall pl sl pr sr p B T,
  pl < pr -> pl <= p -> p <= pr -> B <= sl <= T -> B <= sr <= T ->
  B <= fst (slope_intercept pl sl pr sr) * p + snd (slope_intercept pl sl pr sr) <= T.
Proof.
  intros pl sl pr sr p B T H Hl Hr [Hs1 Hs2] [Hs3 Hs4].
  rewrite slope_intercept_at by auto.
  assert (Hd : 0 < pr - pl) by Lqa.lra.
  assert (Ha : 0 <= pr - p) by Lqa.lra. assert (Hb : 0 <= p - pl) by Lqa.lra.
  split.
  - apply Qle_shift_div_l; auto.
    assert (E : B * (pr - pl) == B * (pr - p) + B * (p - pl)) by ring. rewrite E.
    apply Qplus_le_compat; apply Qmult_le_compat_r; auto.
  - apply Qle_shift_div_r; auto.
    assert (E : T * (pr - pl) == T * (pr - p) + T * (p - pl)) by ring. rewrite E.
    apply Qplus_le_compat; apply Qmult_le_compat_r; auto.
Qed.

Lemma anchor_probs : forall c scores lo hi i,
  (0 < n_bins c)%nat -> (i <= n_bins c)%nat ->
  let '(pl, sl, pr, sr) := anchor c scores lo hi i in
  pl * inject_Z (Z.of_nat (n_bins c)) ==
    match i with O => 0 | S j => inject_Z (Z.of_nat j) + (1 # 2) end /\
  pr * inject_Z (Z.of_nat (n_bins c)) ==
    (if Nat.eqb i (n_bins c) then inject_Z (Z.of_nat (n_bins c))
     else inject_Z (Z.of_nat i) + (1 # 2)).
Proof.
  intros c scores lo hi i Hn Hi. unfold anchor. split.
  - destruct i as [|j]; [ring|]. apply mean_prob_scaled; auto.
  - destruct (Nat.eqb i (n_bins c)); [ring|]. apply mean_prob_scaled; auto.
Qed.

Lemma anchor_order : forall c scores lo hi i,
  (0 < n_bins c)%nat -> (i <= n_bins c)%nat ->
  let '(pl, sl, pr, sr) := anchor c scores lo hi i in pl < pr.
Proof.
  intros c scores lo hi i Hn Hi.
  pose proof (anchor_probs c scores lo hi i Hn Hi) as H.
  destruct (anchor c scores lo hi i) as [[[pl sl] pr] sr].
  destruct H as [H1 H2]. pose proof (Nq_pos c Hn) as HN.
  apply (Qmult_lt_r _ _ _ HN). rewrite H1, H2.
  assert (Hle : inject_Z (Z.of_nat i) <= inject_Z (Z.of_nat (n_bins c)))
    by (rewrite <- Zle_Qle; lia).
  destruct i as [|j]; destruct (Nat.eqb_spec (S j) (n_bins c)) as [E|E] ||
    destruct (Nat.eqb_spec 0 (n_bins c)) as [E|E].
  - lia.
  - change (inject_Z (Z.of_nat 0)) with 0. Lqa.lra.
  - rewrite <- E. rewrite Nat2Z.inj_succ, <- Z.add_1_r, inject_Z_plus.
    change (inject_Z 1) with 1. Lqa.lra.
  - rewrite Nat2Z.inj_succ, <- Z.add_1_r, inject_Z_plus.
    change (inject_Z 1) with 1. Lqa.lra.
Qed.

Lemma calc_mapping_row : forall c s0 rest mapping i,
  calc_mapping c (s0 :: rest) = Ok mapping -> (i <= n_bins c)%nat ->
  nth_error mapping i =
  Some (let mx := fold_left Z.max (s0 :: rest) s0 in
        let mn := fold_left Z.min (s0 :: rest) s0 in
        let p := inject_Z (pdo c) in
        let lo := if bad_flag c then inject_Z mx + p else inject_Z mn - p in
        let hi := if bad_flag c then inject_Z mn - p / 2 else inject_Z mx + p / 2 in
        let '(pl, sl, pr, sr) := anchor c (s0 :: rest) lo hi i in
        slope_intercept pl sl pr sr).
Proof.
  intros c s0 rest mapping i H Hi. unfold calc_mapping in H. cbv beta iota in H.
  assert (Ok_inj : forall A (a b : A), Ok a = Ok b -> a = b)
    by (intros A a b E; injection E; auto).
  apply Ok_inj in H. subst mapping.
  rewrite nth_error_map, nth_error_seq.
  replace (Nat.ltb i (S (n_bins c))) with true
    by (symmetry; apply Nat.ltb_lt; lia).
  reflexivity.
Qed.

Lemma mapping_row : forall c s0 rest mapping i s t,
  calc_mapping c (s0 :: rest) = Ok mapping ->
  (0 < n_bins c)%nat -> (i <= n_bins c)%nat ->
  nth_error mapping i = Some (s, t) ->
  let mx := fold_left Z.max (s0 :: rest) s0 in
  let mn := fold_left Z.min (s0 :: rest) s0 in
  let p := inject_Z (pdo c) in
  let lo := if bad_flag c then inject_Z mx + p else inject_Z mn - p in
  let hi := if bad_flag c then inject_Z mn - p / 2 else inject_Z mx + p / 2 in
  let '(pl, sl, pr, sr) := anchor c (s0 :: rest) lo hi i in
  pl < pr /\ s * pl + t == sl /\ s * pr + t == sr /\
  (forall q B T, pl <= q -> q <= pr -> B <= sl <= T -> B <= sr <= T ->
                 B <= s * q + t <= T).
Proof.
  intros c s0 rest mapping i s t H Hn Hi Hrow.
  rewrite (calc_mapping_row c s0 rest mapping i H Hi) in Hrow.
  cbv zeta in Hrow |- *.
  pose proof (anchor_order c (s0 :: rest)
    (if bad_flag c then inject_Z (fold_left Z.max (s0 :: rest) s0) + inject_Z (pdo c)
     else inject_Z (fold_left Z.min (s0 :: rest) s0) - inject_Z (pdo c))
    (if bad_flag c then inject_Z (fold_left Z.min (s0 :: rest) s0) - inject_Z (pdo c) / 2
     else inject_Z (fold_left Z.max (s0 :: rest) s0) + inject_Z (pdo c) / 2)
    i Hn Hi) as Hord.
  destruct (anchor c (s0 :: rest) _ _ i) as [[[pl sl] pr] sr].
  apply (f_equal (fun o => match o with Some v => v | None => (0, 0) end)) in Hrow.
  cbv beta iota in Hrow.
  assert (Es : s = fst (slope_intercept pl sl pr sr)) by (rewrite Hrow; reflexivity).
  assert (Et : t = snd (slope_intercept pl sl pr sr)) by (rewrite Hrow; reflexivity).
  rewrite Es, Et. split; [auto|]. split; [apply slope_intercept_left; auto|].
  split; [apply slope_intercept_right; auto|].
  intros q B T Hq1 Hq2 Hsl Hsr. apply slope_intercept_between; auto.
Qed.

Lemma fold_min_spec : forall l a,
  In (fold_left Z.min l a) (a :: l) /\
  (fold_left Z.min l a <= a)%Z /\ (forall x, In x l -> (fold_left Z.min l a <= x)%Z).
Proof.
  induction l as [|y l IH]; intros a; simpl.
  - split; [auto|]. split; [lia|]. intros x [].
  - destruct (IH (Z.min a y)) as (Hin & Hle & Hall).
    split.
    + destruct Hin as [E|E]; [|right; right; auto].
      rewrite <- E. destruct (Z.min_spec a y) as [[_ ->]|[_ ->]]; auto.
    + split; [lia|]. intros x [<-|Hx]; [lia|]. apply Hall; auto.
Qed.

Lemma fold_max_spec : forall l a,
  In (fold_left Z.max l a) (a :: l) /\
  (a <= fold_left Z.max l a)%Z /\ (forall x, In x l -> (x <= fold_left Z.max l a)%Z).
Proof.
  induction l as [|y l IH]; intros a; simpl.
  - split; [auto|]. split; [lia|]. intros x [].
  - destruct (IH (Z.max a y)) as (Hin & Hle & Hall).
    split.
    + destruct Hin as [E|E]; [|right; right; auto].
      rewrite <- E. destruct (Z.max_spec a y) as [[_ ->]|[_ ->]]; auto.
    + split; [lia|]. intros x [<-|Hx]; [lia|]. apply Hall; auto.
Qed.

Lemma seg_index_mean_prob : forall c k, (0 < n_bins c)%nat ->
  seg_index c (mean_prob c k) = Z.of_nat (S k).
Proof.
  intros c k Hn.
  assert (Hp : 0 <= mean_prob c k).
  { apply (Qmult_le_r _ _ _ (Nq_pos c Hn)). rewrite mean_prob_scaled by auto.
    assert (0 <= inject_Z (Z.of_nat k)) by (change 0 with (inject_Z 0); rewrite <- Zle_Qle; lia).
    Lqa.lra. }
  rewrite seg_index_floor by auto. rewrite mean_prob_scaled by auto.
  apply Qfloor_unique; rewrite Nat2Z.inj_succ, <- Z.add_1_r, inject_Z_plus;
    change (inject_Z 1) with 1; Lqa.lra.
Qed.

Lemma mapping_rows_meet : forall c scores mapping k s1 t1 s2 t2,
  calc_mapping c scores = Ok mapping -> length scores = n_bins c ->
  (k < n_bins c)%nat ->
  nth_error mapping k = Some (s1, t1) -> nth_error mapping (S k) = Some (s2, t2) ->
  s1 * mean_prob c k + t1 == inject_Z (nth k scores 0%Z) /\
  s2 * mean_prob c k + t2 == inject_Z (nth k scores 0%Z).
Proof.
  intros c scores mapping k s1 t1 s2 t2 H Hlen Hk R1 R2.
  destruct scores as [|s0 rest]; [simpl in Hlen; lia|].
  assert (Hn : (0 < n_bins c)%nat) by lia.
  pose proof (mapping_row c s0 rest mapping k s1 t1 H Hn ltac:(lia) R1) as A1.
  pose proof (mapping_row c s0 rest mapping (S k) s2 t2 H Hn ltac:(lia) R2) as A2.
  cbv zeta in A1, A2. unfold anchor in A1, A2.
  replace (Nat.eqb k (n_bins c)) with false in A1 by (symmetry; apply Nat.eqb_neq; lia).
  cbv beta iota in A1, A2.
  destruct A1 as (_ & _ & A1 & _). destruct A2 as (_ & A2 & _ & _).
  split; auto.
Qed.

(** [__calc_mapping_df] builds a continuous broken line: rows [k] and
    [k + 1] of [mapping_df] both pass through the anchor
    [(mean_prob[k], score[k])] (lines 202-226). *)
Theorem calc_mapping_continuous : forall c scores mapping k s1 t1 s2 t2,
  calc_mapping c scores = Ok mapping -> length scores = n_bins c ->
  (k < n_bins c)%nat ->
  nth_error mapping k = Some (s1, t1) -> nth_error mapping (S k) = Some (s2, t2) ->
  s1 * mean_prob c k + t1 == inject_Z (nth k scores 0%Z) /\
  s2 * mean_prob c k + t2 == inject_Z (nth k scores 0%Z).
Proof. intros. eapply mapping_rows_meet; eauto. Qed.

Lemma Qle_bool_comp : forall x x' y y', x == x' -> y == y' ->
  Qle_bool x y = Qle_bool x' y'.
Proof.
  intros x x' y y' Ex Ey.
  destruct (Qle_bool x y) eqn:E1; destruct (Qle_bool x' y') eqn:E2; auto.
  - apply Qle_bool_iff in E1. rewrite Ex, Ey in E1.
    apply Qle_bool_iff in E1. congruence.
  - apply Qle_bool_iff in E2. rewrite <- Ex, <- Ey in E2.
    apply Qle_bool_iff in E2. congruence.
Qed.

Lemma py_round_comp : forall q q', q == q' -> py_round q = py_round q'.
Proof.
  intros q q' E. unfold py_round, Qlt_bool. rewrite (Qfloor_comp q q' E).
  assert (Er : q - inject_Z (Qfloor q') == q' - inject_Z (Qfloor q'))
    by (rewrite E; reflexivity).
  rewrite (Qle_bool_comp (1 # 2) (1 # 2) _ _ (Qeq_refl _) Er).
  rewrite (Qle_bool_comp _ _ (1 # 2) (1 # 2) Er (Qeq_refl _)).
  reflexivity.
Qed.

Lemma calc_mapping_len : forall c scores mapping,
  calc_mapping c scores = Ok mapping -> length mapping = S (n_bins c).
Proof.
  intros c [|s0 rest] mapping H; [discriminate|].
  destruct (calc_mapping_length c s0 rest) as (m & Hm & Hl).
  rewrite Hm in H. injection H as <-. auto.
Qed.

Lemma row_exists : forall (mapping : list (Q * Q)) i, (i < length mapping)%nat ->
  exists s t, nth_error mapping i = Some (s, t).
Proof.
  intros mapping i H. destruct (nth_error mapping i) as [[s t]|] eqn:E.
  - eauto.
  - apply nth_error_None in E. lia.
Qed.

Lemma adjust_odds_length : forall n bins adj,
  adjust_odds n bins = Ok adj -> length adj = length bins.
Proof.
  intros n bins adj H.
  destruct (adjust_odds_unfold n bins adj H) as (M & mx & L & mn & _ & _ & _ & _ & ->).
  rewrite mid_loop_length, high_loop_length, low_loop_length, length_zeroed_odds.
  reflexivity.
Qed.

Lemma fit_parts : forall c x y scores mapping,
  fit c x y = Ok (scores, mapping) ->
  fit_scores c x y = Ok scores /\ calc_mapping c scores = Ok mapping /\
  length scores = n_bins c /\ (0 < n_bins c)%nat.
Proof.
  intros c x y scores mapping H. unfold fit in H.
  destruct (fit_guard _ _); [|discriminate]. simpl in H.
  destruct (fit_scores c x y) as [s|] eqn:Es; [|discriminate]. simpl in H.
  destruct (calc_mapping c s) as [m|] eqn:Em; [|discriminate]. simpl in H.
  injection H as <- <-.
  assert (Hl : length s = n_bins c).
  { unfold fit_scores, fit_odds in Es.
    destruct (adjust_odds (n_bins c) (calc_raw_bins c x y)) as [adj|] eqn:Ea;
      [|discriminate].
    simpl in Es. apply mapM_spec in Es as [Hl _]. rewrite Hl.
    unfold final_order. destruct (bad_flag c); rewrite ?length_rev;
      rewrite (adjust_odds_length _ _ _ Ea); unfold calc_raw_bins;
      rewrite length_map, length_seq; reflexivity. }
  split; [auto|]. split; [auto|]. split; [auto|].
  destruct s as [|s0 rest]; [discriminate|]. simpl in Hl. lia.
Qed.

(** [transform] reproduces the fitted scores: at the [mean_prob] of row
    [k] of the final binning table it returns exactly that row's score
    (lines 90-96 on the table of lines 202-226). *)
Theorem transform_mean_prob : forall c x y scores mapping k,
  fit c x y = Ok (scores, mapping) -> (k < n_bins c)%nat ->
  transform c mapping [mean_prob c k] = Ok [nth k scores 0%Z].
Proof.
  intros c x y scores mapping k H Hk.
  destruct (fit_parts c x y scores mapping H) as (_ & Hm & Hl & Hn).
  pose proof (calc_mapping_len c scores mapping Hm) as Hml.
  destruct (row_exists mapping k ltac:(lia)) as (s1 & t1 & R1).
  destruct (row_exists mapping (S k) ltac:(lia)) as (s2 & t2 & R2).
  destruct (mapping_rows_meet c scores mapping k s1 t1 s2 t2 Hm Hl Hk R1 R2)
    as [_ E].
  unfold transform, transform_one. simpl mapM.
  rewrite seg_index_mean_prob by auto.
  replace (Z.ltb (Z.of_nat (S k)) 0) with false by (symmetry; apply Z.ltb_ge; lia).
  rewrite Nat2Z.id, R2. simpl. rewrite (py_round_Z _ _ E). reflexivity.
Qed.

(** At the ends of the probability range [transform] returns the outer
    anchor scores of [__calc_mapping_df] when [pdo] is even: at [p = 0]
    the [score_l] of row 0 ([max(score) + pdo] with [bad_flag],
    [min(score) - pdo] without) and at [p = 1] the [score_r] of row
    [n_bins] ([min(score) - pdo/2] with [bad_flag], [max(score) + pdo/2]
    without), both integers (lines 209-218). *)
Theorem transform_endpoints : forall c s0 rest mapping,
  calc_mapping c (s0 :: rest) = Ok mapping -> (0 < n_bins c)%nat ->
  Z.even (pdo c) = true ->
  let mx := fold_left Z.max (s0 :: rest) s0 in
  let mn := fold_left Z.min (s0 :: rest) s0 in
  transform c mapping [0; 1] =
    Ok [if bad_flag c then (mx + pdo c)%Z else (mn - pdo c)%Z;
        if bad_flag c then (mn - pdo c / 2)%Z else (mx + pdo c / 2)%Z].
Proof.
  intros c s0 rest mapping H Hn Hev mx mn.
  destruct (proj1 (Z.even_spec (pdo c)) Hev) as (h & Hh).
  assert (Hd : (pdo c / 2 = h)%Z)
    by (rewrite Hh, Z.mul_comm, Z.div_mul; lia).
  pose proof (calc_mapping_len c _ mapping H) as Hml.
  destruct (row_exists mapping 0 ltac:(lia)) as (s1 & t1 & R1).
  destruct (row_exists mapping (n_bins c) ltac:(lia)) as (s2 & t2 & R2).
  pose proof (mapping_row c s0 rest mapping 0 s1 t1 H Hn ltac:(lia) R1) as A1.
  pose proof (mapping_row c s0 rest mapping (n_bins c) s2 t2 H Hn ltac:(lia) R2)
    as A2.
  cbv zeta in A1, A2. unfold anchor in A1, A2.
  rewrite Nat.eqb_refl in A2. cbv beta iota in A1, A2.
  destruct A1 as (_ & A1 & _). destruct A2 as (_ & _ & A2 & _).
  assert (S0 : seg_index c 0 = 0%Z).
  { rewrite seg_index_floor by (auto; apply Qle_refl).
    apply Qfloor_unique; simpl; unfold Qle, Qlt; simpl; lia. }
  assert (S1 : seg_index c 1 = Z.of_nat (n_bins c)).
  { rewrite seg_index_floor by (auto; discriminate).
    apply Qfloor_unique; rewrite Qmult_1_l; rewrite ?inject_Z_plus;
      change (inject_Z 1) with 1; Lqa.lra. }
  unfold transform, transform_one. simpl mapM.
  rewrite S0, S1. simpl Z.ltb.
  replace (Z.ltb (Z.of_nat (n_bins c)) 0) with false by (symmetry; apply Z.ltb_ge; lia).
  rewrite Nat2Z.id. simpl Z.to_nat. rewrite R1, R2. simpl.
  f_equal. f_equal.
  - apply py_round_Z. rewrite Qmult_0_r, Qplus_0_l in A1. rewrite A1.
    unfold mx, mn. destruct (bad_flag c); unfold Zminus;
      rewrite ?inject_Z_plus, ?inject_Z_opp; ring.
  - f_equal. rewrite (py_round_comp _ _ A2). apply py_round_Z.
    rewrite Hd. unfold mx, mn. rewrite Hh.
    destruct (bad_flag c); unfold Zminus;
      rewrite ?inject_Z_plus, ?inject_Z_opp, ?inject_Z_mult; field.
Qed.

Lemma anchor_contains : forall c scores lo hi p,
  (0 < n_bins c)%nat -> 0 <= p -> p <= 1 ->
  (0 <= seg_index c p)%Z /\ (Z.to_nat (seg_index c p) <= n_bins c)%nat /\
  let '(pl, sl, pr, sr) := anchor c scores lo hi (Z.to_nat (seg_index c p)) in
  pl <= p /\ p <= pr.
Proof.
  intros c scores lo hi p Hn Hp0 Hp1.
  pose proof (Nq_pos c Hn) as HN.
  rewrite seg_index_floor by auto.
  set (N := inject_Z (Z.of_nat (n_bins c))) in *.
  set (f := Qfloor (p * N + (1 # 2))).
  pose proof (Qfloor_le (p * N + (1 # 2))) as Hf1.
  pose proof (Qlt_floor (p * N + (1 # 2))) as Hf2. fold f in Hf1, Hf2.
  rewrite inject_Z_plus in Hf2. change (inject_Z 1) with 1 in Hf2.
  assert (HpN0 : 0 <= p * N) by (apply Qmult_le_0_compat; auto; apply Qlt_le_weak; auto).
  assert (HpN1 : p * N <= N).
  { assert (E : N == 1 * N) by ring. rewrite E at 2.
    apply Qmult_le_compat_r; auto. apply Qlt_le_weak; auto. }
  assert (Hf0 : (0 <= f)%Z).
  { assert (H : inject_Z (-1) < inject_Z f) by (change (inject_Z (-1)) with (-1); Lqa.lra).
    rewrite <- Zlt_Qlt in H. lia. }
  assert (HfN : (f <= Z.of_nat (n_bins c))%Z).
  { assert (H : inject_Z f < inject_Z (Z.of_nat (n_bins c) + 1)).
    { rewrite inject_Z_plus. change (inject_Z 1) with 1. fold N. Lqa.lra. }
    rewrite <- Zlt_Qlt in H. lia. }
  split; [auto|]. split; [lia|].
  set (i := Z.to_nat f).
  assert (Ei : inject_Z (Z.of_nat i) == inject_Z f)
    by (unfold i; rewrite Z2Nat.id by auto; reflexivity).
  pose proof (anchor_probs c scores lo hi i Hn ltac:(unfold i; lia)) as Hpr.
  destruct (anchor c scores lo hi i) as [[[pl sl] pr] sr].
  destruct Hpr as [Hl Hr]. fold N in Hl, Hr.
  split.
  - apply (Qmult_le_r _ _ _ HN). rewrite Hl.
    destruct i as [|j] eqn:Ej; [auto|].
    rewrite Nat2Z.inj_succ, <- Z.add_1_r, inject_Z_plus in Ei.
    change (inject_Z 1) with 1 in Ei. Lqa.lra.
  - apply (Qmult_le_r _ _ _ HN). rewrite Hr.
    destruct (Nat.eqb i (n_bins c)); [auto|]. Lqa.lra.
Qed.

Lemma anchor_bounded : forall c scores lo hi i B T,
  length scores = n_bins c -> (i <= n_bins c)%nat ->
  B <= lo <= T -> B <= hi <= T ->
  (forall s, In s scores -> B <= inject_Z s <= T) ->
  let '(pl, sl, pr, sr) := anchor c scores lo hi i in
  (B <= sl <= T) /\ (B <= sr <= T).
Proof.
  intros c scores lo hi i B T Hl Hi Hlo Hhi Hs. unfold anchor.
  destruct (Nat.eqb_spec i (n_bins c)) as [E|E]; destruct i as [|j];
    cbv beta iota; split; auto; apply Hs; apply nth_In; lia.
Qed.

(** With a non-negative [pdo], [transform] never leaves the range of the
    fitted scores widened by [pdo] on both sides, for every probability in
    [0, 1]: it interpolates between anchors whose scores lie in that range
    and rounds (lines 90-96 on the table of lines 202-226). *)
Theorem transform_bounded : forall c x y scores mapping p lo hi,
  fit c x y = Ok (scores, mapping) -> (0 <= pdo c)%Z -> 0 <= p -> p <= 1 ->
  (forall s, In s scores -> (lo <= s <= hi)%Z) ->
  exists z, transform c mapping [p] = Ok [z] /\ (lo - pdo c <= z <= hi + pdo c)%Z.
Proof.
  intros c x y scores mapping p lo hi H Hpdo Hp0 Hp1 Hs.
  destruct (fit_parts c x y scores mapping H) as (_ & Hm & Hl & Hn).
  destruct scores as [|s0 rest]; [simpl in Hl; lia|].
  pose proof (calc_mapping_len c _ mapping Hm) as Hml.
  set (B := inject_Z (lo - pdo c)). set (T := inject_Z (hi + pdo c)).
  destruct (fold_max_spec (s0 :: rest) s0) as (Hmx & _ & _).
  destruct (fold_min_spec (s0 :: rest) s0) as (Hmn & _ & Hmn2).
  set (mx := fold_left Z.max (s0 :: rest) s0) in *.
  set (mn := fold_left Z.min (s0 :: rest) s0) in *.
  assert (Hmx' : (lo <= mx <= hi)%Z) by (apply Hs; destruct Hmx as [<-|]; simpl; auto).
  assert (Hmn' : (lo <= mn <= hi)%Z) by (apply Hs; destruct Hmn as [<-|]; simpl; auto).
  assert (Hmm : (mn <= mx)%Z).
  { destruct Hmx as [<-|Hmx]; [apply Hmn2; left; auto|]. apply Hmn2. auto. }
  assert (QB : B == inject_Z lo - inject_Z (pdo c))
    by (unfold B, Zminus; rewrite inject_Z_plus, inject_Z_opp; reflexivity).
  assert (QT : T == inject_Z hi + inject_Z (pdo c))
    by (unfold T; rewrite inject_Z_plus; reflexivity).
  assert (Q1 : inject_Z lo <= inject_Z mn) by (rewrite <- Zle_Qle; lia).
  assert (Q2 : inject_Z mn <= inject_Z mx) by (rewrite <- Zle_Qle; lia).
  assert (Q3 : inject_Z mx <= inject_Z hi) by (rewrite <- Zle_Qle; lia).
  assert (Q4 : 0 <= inject_Z (pdo c)) by (change 0 with (inject_Z 0); rewrite <- Zle_Qle; lia).
  set (LO := if bad_flag c then inject_Z mx + inject_Z (pdo c)
             else inject_Z mn - inject_Z (pdo c)).
  set (HI := if bad_flag c then inject_Z mn - inject_Z (pdo c) / 2
             else inject_Z mx + inject_Z (pdo c) / 2).
  assert (HLO : B <= LO <= T)
    by (unfold LO; rewrite QB, QT; destruct (bad_flag c); split; Lqa.lra).
  assert (HHI : B <= HI <= T).
  { unfold HI; rewrite QB, QT. unfold Qdiv. change (/ 2) with (1 # 2).
    destruct (bad_flag c); split; Lqa.lra. }
  assert (HS : forall s, In s (s0 :: rest) -> B <= inject_Z s <= T).
  { intros s Hin. destruct (Hs s Hin). rewrite QB, QT.
    assert (inject_Z lo <= inject_Z s) by (rewrite <- Zle_Qle; lia).
    assert (inject_Z s <= inject_Z hi) by (rewrite <- Zle_Qle; lia).
    split; Lqa.lra. }
  destruct (anchor_contains c (s0 :: rest) LO HI p Hn Hp0 Hp1) as (Hs0 & Hi & Hin).
  set (i := Z.to_nat (seg_index c p)) in *.
  destruct (row_exists mapping i ltac:(lia)) as (s & t & R).
  pose proof (mapping_row c s0 rest mapping i s t Hm Hn Hi R) as A.
  cbv zeta in A. fold mx mn LO HI in A.
  pose proof (anchor_bounded c (s0 :: rest) LO HI i B T Hl Hi HLO HHI HS) as Hb.
  destruct (anchor c (s0 :: rest) LO HI i) as [[[pl sl] pr] sr].
  destruct A as (_ & _ & _ & A). destruct Hin as [Hin1 Hin2]. destruct Hb as [Hb1 Hb2].
  destruct (A p B T Hin1 Hin2 Hb1 Hb2) as [V1 V2].
  exists (py_round (s * p + t)). split.
  - unfold transform, transform_one. simpl mapM.
    replace (Z.ltb (seg_index c p) 0) with false by (symmetry; apply Z.ltb_ge; lia).
    fold i. rewrite R. reflexivity.
  - split; [apply py_round_ge; auto | apply py_round_le; auto].
Qed.

(** ** The bars of [plot_bins] *)

Lemma hit_rate_sum : forall (l : list bin) T, T <> 0%Z ->
  series_sum (map (fun b => count_ratio (hits b) (Some T)) l) ==
  inject_Z (total_hits l) / inject_Z T.
Proof.
  intros l T HT.
  assert (HQ : ~ inject_Z T == 0)
    by (intros E; apply HT; apply (proj1 (inject_Z_injective T 0)); auto).
  induction l as [|b l IH].
  - cbn [map series_sum fold_right total_hits sumZ].
    unfold Qdiv. symmetry. apply Qmult_0_l.
  - change (map (fun b => count_ratio (hits b) (Some T)) (b :: l)) with
      (count_ratio (hits b) (Some T) :: map (fun b => count_ratio (hits b) (Some T)) l).
    assert (E1 : forall o r, series_sum (o :: r) =
                  match o with Fin q => q + series_sum r | _ => series_sum r end)
      by reflexivity.
    assert (E2 : total_hits (b :: l) =
                 ((match hits b with Some h => h | None => 0 end) + total_hits l)%Z)
      by reflexivity.
    rewrite E1, E2. unfold count_ratio at 1.
    destruct (hits b) as [h|].
    + replace (Z.eqb T 0) with false by (symmetry; apply Z.eqb_neq; auto).
      cbv beta iota. rewrite IH, inject_Z_plus. field. auto.
    + cbv beta iota. rewrite IH. rewrite Z.add_0_l. reflexivity.
Qed.

(** The hit-rate bars of [plot_bins] are never infinite and add up to 1
    as soon as some sample was counted: [hits / hits.sum()] over the
    non-empty rows (line 247). *)
Theorem hit_rate_total : forall bins,
  total_hits bins <> 0%Z ->
  ~ In Inf (hit_rate bins) /\ series_sum (hit_rate bins) == 1.
Proof.
  intros bins HT. split.
  - unfold hit_rate. intros Hin. apply in_map_iff in Hin as (b & Hb & _).
    unfold count_ratio in Hb. destruct (hits b); [|discriminate].
    replace (Z.eqb (total_hits bins) 0) with false in Hb
      by (symmetry; apply Z.eqb_neq; auto). discriminate.
  - unfold hit_rate. rewrite hit_rate_sum by auto. field.
    intros E. apply HT. apply (proj1 (inject_Z_injective _ 0)). auto.
Qed.

(** With binary labels, every positive-rate bar of [plot_bins] over the
    fitted table is NaN (an empty row) or a rate between 0 and 1
    (lines 248-249). *)
Theorem pos_rate_bounded : forall c x y o,
  (forall l, In l y -> is_binary l = true) ->
  In o (pos_rate c (final_order c (calc_raw_bins c x y))) ->
  o = NaN \/ exists q, o = Fin q /\ 0 <= q <= 1.
Proof.
  intros c x y o Hy Hin. unfold pos_rate in Hin.
  apply in_map_iff in Hin as (b & <- & Hb).
  assert (Hb' : In b (calc_raw_bins c x y))
    by (unfold final_order in Hb; destruct (bad_flag c); auto; apply in_rev; auto).
  unfold calc_raw_bins in Hb'. apply in_map_iff in Hb' as (k & <- & _).
  destruct (calc_bin_counts_aux c x y k Hy) as [E|(h & g & d & E & Hg & Hd & Hs & Hh)];
    rewrite E; [left; destruct (bad_flag c); reflexivity|].
  right. unfold count_ratio. cbn [hits good_hits bad_hits].
  replace (Z.eqb h 0) with false by (symmetry; apply Z.eqb_neq; lia).
  assert (Hq : 0 < inject_Z h) by (change 0 with (inject_Z 0); rewrite <- Zlt_Qlt; lia).
  assert (Hbound : forall a, (0 <= a <= h)%Z ->
                   0 <= inject_Z a / inject_Z h <= 1).
  { intros a Ha. split.
    - apply Qle_shift_div_l; auto. rewrite Qmult_0_l.
      change 0 with (inject_Z 0). rewrite <- Zle_Qle. lia.
    - apply Qle_shift_div_r; auto. rewrite Qmult_1_l. rewrite <- Zle_Qle. lia. }
  destruct (bad_flag c); (eexists; split; [reflexivity|]); apply Hbound; lia.
Qed.

Lemma score_of_comp : forall c q q', q == q' -> score_of c q = score_of c q'.
Proof.
  intros c q q' E. unfold score_of.
  rewrite (Qle_bool_comp (q / standard_odds c) (q' / standard_odds c) 0 0)
    by (rewrite ?E; reflexivity).
  unfold score_value. rewrite (Qeq_eqR q q' E). reflexivity.
Qed.

(** ** A fitted example *)

(** Two bins without [bad_flag] and [standard_odds = 1]: bin 0 holds one
    good and one bad sample (odds 1), bin 1 two good and one bad (odds 2);
    the scores are [500; 520]. *)
Lemma fit_example :
  let c := {| n_bins := 2; standard_score := 500; standard_odds := 1;
              pdo := 20; bad_flag := false |} in
  let m0 := match calc_mapping c [500; 520]%Z with Ok m => m | Err _ => [] end in
  fit c [1#10; 1#10; 3#5; 3#5; 3#5] [1; 0; 1; 1; 0]%Z = Ok ([500; 520]%Z, m0).
Proof.
  intros c m0.
  assert (Hfo : exists b, fit_odds c [1#10; 1#10; 3#5; 3#5; 3#5] [1; 0; 1; 1; 0]%Z
                          = Ok (b, [1; 2]))
    by (eexists; vm_compute; reflexivity).
  destruct Hfo as (b & Hfo).
  assert (Hso : 0 < standard_odds c) by reflexivity.
  assert (S0 : score_of c 1 = Ok 500%Z).
  { rewrite (score_of_comp c 1 (standard_odds c * inject_Z (2 ^ Z.of_nat 0)))
      by reflexivity.
    rewrite (proj1 (score_of_grid c 0 Hso)). reflexivity. }
  assert (S1 : score_of c 2 = Ok 520%Z).
  { rewrite (score_of_comp c 2 (standard_odds c * inject_Z (2 ^ Z.of_nat 1)))
      by reflexivity.
    rewrite (proj1 (score_of_grid c 1 Hso)). reflexivity. }
  unfold fit.
  assert (G : fit_guard (NdArray [length [1#10; 1#10; 3#5; 3#5; 3#5]])
                       (NdArray [length [1; 0; 1; 1; 0]%Z]) = Ok tt) by reflexivity.
  rewrite G. cbv beta iota delta [bind].
  unfold fit_scores. rewrite Hfo. cbv beta iota delta [bind snd].
  unfold final_order. simpl bad_flag. cbv iota.
  cbn [mapM]. cbv delta [bind] beta. rewrite S0, S1. reflexivity.
Qed.

(** ** Witnesses *)

Lemma calc_bin_counts_witness :
  let c := {| n_bins := 2; standard_score := 500; standard_odds := 1;
              pdo := 20; bad_flag := false |} in
  (forall l, In l [1; 0; 1; 1; 0]%Z -> is_binary l = true) /\
  (calc_bin c [1#10; 1#10; 3#5; 3#5; 3#5] [1; 0; 1; 1; 0]%Z 1 = empty_bin \/
   exists h g d, calc_bin c [1#10; 1#10; 3#5; 3#5; 3#5] [1; 0; 1; 1; 0]%Z 1 =
      {| hits := Some h; good_hits := Some g; bad_hits := Some d |} /\
    (0 <= g)%Z /\ (0 <= d)%Z /\ (g + d = h)%Z /\ (0 < h)%Z).
Proof.
  intros c.
  assert (Hy : forall l, In l [1; 0; 1; 1; 0]%Z -> is_binary l = true)
    by (apply forallb_forall; reflexivity).
  split; [exact Hy|]. apply calc_bin_counts. exact Hy.
Defined.



Lemma score_of_doubling_witness :
  0 < standard_odds default_config /\
  score_of default_config (standard_odds default_config * inject_Z (2 ^ Z.of_nat 3)) =
    Ok (standard_score default_config + pdo default_config * Z.of_nat 3)%Z /\
  score_of default_config (standard_odds default_config / inject_Z (2 ^ Z.of_nat 3)) =
    Ok (standard_score default_config - pdo default_config * Z.of_nat 3)%Z.
Proof.
  split; [reflexivity|]. apply score_of_doubling. reflexivity.
Defined.

Lemma calc_mapping_continuous_witness :
  let c := {| n_bins := 2; standard_score := 500; standard_odds := 1;
              pdo := 20; bad_flag := false |} in
  let m0 := match calc_mapping c [500; 520]%Z with Ok m => m | Err _ => [] end in
  exists s1 t1 s2 t2,
    calc_mapping c [500; 520]%Z = Ok m0 /\ length [500; 520]%Z = n_bins c /\
    (0 < n_bins c)%nat /\
    nth_error m0 0 = Some (s1, t1) /\ nth_error m0 1 = Some (s2, t2) /\
    s1 * mean_prob c 0 + t1 == inject_Z (nth 0 [500; 520]%Z 0%Z) /\
    s2 * mean_prob c 0 + t2 == inject_Z (nth 0 [500; 520]%Z 0%Z).
Proof.
  intros c m0.
  assert (R1 : exists s t, nth_error m0 0 = Some (s, t))
    by (do 2 eexists; reflexivity).
  assert (R2 : exists s t, nth_error m0 1 = Some (s, t))
    by (do 2 eexists; reflexivity).
  destruct R1 as (s1 & t1 & R1). destruct R2 as (s2 & t2 & R2).
  exists s1, t1, s2, t2.
  split; [reflexivity|]. split; [reflexivity|]. split; [simpl; lia|].
  split; [exact R1|]. split; [exact R2|].
  apply (calc_mapping_continuous c [500; 520]%Z m0 0 s1 t1 s2 t2);
    [reflexivity|reflexivity|simpl; lia|exact R1|exact R2].
Defined.

Lemma transform_mean_prob_witness :
  let c := {| n_bins := 2; standard_score := 500; standard_odds := 1;
              pdo := 20; bad_flag := false |} in
  let m0 := match calc_mapping c [500; 520]%Z with Ok m => m | Err _ => [] end in
  fit c [1#10; 1#10; 3#5; 3#5; 3#5] [1; 0; 1; 1; 0]%Z = Ok ([500; 520]%Z, m0) /\
  (1 < n_bins c)%nat /\
  transform c m0 [mean_prob c 1] = Ok [nth 1 [500; 520]%Z 0%Z].
Proof.
  intros c m0. split; [apply fit_example|]. split; [simpl; lia|].
  apply (transform_mean_prob c [1#10; 1#10; 3#5; 3#5; 3#5] [1; 0; 1; 1; 0]%Z
           [500; 520]%Z m0).
  - apply fit_example.
  - simpl; lia.
Defined.

Lemma transform_endpoints_witness :
  let c := {| n_bins := 2; standard_score := 500; standard_odds := 1;
              pdo := 20; bad_flag := false |} in
  let m0 := match calc_mapping c [500; 520]%Z with Ok m => m | Err _ => [] end in
  calc_mapping c [500; 520]%Z = Ok m0 /\ (0 < n_bins c)%nat /\
  Z.even (pdo c) = true /\
  transform c m0 [0; 1] =
    Ok [if bad_flag c then (fold_left Z.max [500; 520]%Z 500%Z + pdo c)%Z
        else (fold_left Z.min [500; 520]%Z 500%Z - pdo c)%Z;
        if bad_flag c then (fold_left Z.min [500; 520]%Z 500%Z - pdo c / 2)%Z
        else (fold_left Z.max [500; 520]%Z 500%Z + pdo c / 2)%Z].
Proof.
  intros c m0. split; [reflexivity|]. split; [simpl; lia|].
  split; [reflexivity|].
  apply (transform_endpoints c 500 [520]%Z m0); [reflexivity|simpl; lia|reflexivity].
Defined.

Lemma transform_bounded_witness :
  let c := {| n_bins := 2; standard_score := 500; standard_odds := 1;
              pdo := 20; bad_flag := false |} in
  let m0 := match calc_mapping c [500; 520]%Z with Ok m => m | Err _ => [] end in
  fit c [1#10; 1#10; 3#5; 3#5; 3#5] [1; 0; 1; 1; 0]%Z = Ok ([500; 520]%Z, m0) /\
  (0 <= pdo c)%Z /\ 0 <= 1#3 /\ 1#3 <= 1 /\
  (forall s, In s [500; 520]%Z -> (500 <= s <= 520)%Z) /\
  exists z, transform c m0 [1#3] = Ok [z] /\ (500 - pdo c <= z <= 520 + pdo c)%Z.
Proof.
  intros c m0.
  assert (Hs : forall s, In s [500; 520]%Z -> (500 <= s <= 520)%Z)
    by (intros s [<-|[<-|[]]]; lia).
  split; [apply fit_example|]. split; [simpl; lia|].
  split; [unfold Qle; simpl; lia|]. split; [unfold Qle; simpl; lia|].
  split; [exact Hs|].
  apply (transform_bounded c [1#10; 1#10; 3#5; 3#5; 3#5] [1; 0; 1; 1; 0]%Z
           [500; 520]%Z m0);
    [apply fit_example|simpl; lia|unfold Qle; simpl; lia|unfold Qle; simpl; lia|exact Hs].
Defined.

Lemma hit_rate_total_witness :
  let c := {| n_bins := 2; standard_score := 500; standard_odds := 1;
              pdo := 20; bad_flag := false |} in
  let bins := calc_raw_bins c [1#10; 1#10; 3#5; 3#5; 3#5] [1; 0; 1; 1; 0]%Z in
  total_hits bins <> 0%Z /\
  ~ In Inf (hit_rate bins) /\ series_sum (hit_rate bins) == 1.
Proof.
  intros c bins.
  assert (HT : total_hits bins <> 0%Z) by (vm_compute; discriminate).
  split; [exact HT|]. apply hit_rate_total. exact HT.
Defined.

Lemma pos_rate_bounded_witness :
  let c := {| n_bins := 2; standard_score := 500; standard_odds := 1;
              pdo := 20; bad_flag := false |} in
  (forall l, In l [1; 0; 1; 1; 0]%Z -> is_binary l = true) /\
  In (Fin (1#2)) (pos_rate c (final_order c
        (calc_raw_bins c [1#10; 1#10; 3#5; 3#5; 3#5] [1; 0; 1; 1; 0]%Z))) /\
  (Fin (1#2) = NaN \/ exists q, Fin (1#2) = Fin q /\ 0 <= q <= 1).
Proof.
  intros c.
  assert (Hy : forall l, In l [1; 0; 1; 1; 0]%Z -> is_binary l = true)
    by (apply forallb_forall; reflexivity).
  assert (Hin : In (Fin (1#2)) (pos_rate c (final_order c
        (calc_raw_bins c [1#10; 1#10; 3#5; 3#5; 3#5] [1; 0; 1; 1; 0]%Z))))
    by (vm_compute; left; reflexivity).
  split; [exact Hy|]. split; [exact Hin|].
  apply (pos_rate_bounded c [1#10; 1#10; 3#5; 3#5; 3#5] [1; 0; 1; 1; 0]%Z);
    [exact Hy|exact Hin].
Defined.
